(** * Orbital propagation and hierarchy scaling of the three.js solar system

    A shallow embedding of the orbit code of the main script
    ([getJulianDate], [getOrbitPosition], [getMeanAnomaly],
    [createCelestialBody], [updateBodyPhysics], [updatePhysics]) and the
    properties its specification states about it, followed by the meteoroid
    belt ([createMeteoroids], [updateMeteoroids]), the Sun's effects
    ([addSunEffects], [animateSun]), the simulation clock ([animate]) and
    further properties of the code.

    The JavaScript code computes on [Number]s.  The embedding is written once,
    over an interface [JSNumber] of the operations the code uses, and is read
    at two instances:
    - [JSFloat impl]: IEEE 754 binary64 ([PrimFloat]), the numbers the code
      really runs on, with the engine's [Math.sin], [Math.cos] and [Math.pow]
      as a parameter [impl];
    - [JSReal]: exact real arithmetic, the idealisation in which the
      algebraic and numeric statements of the specification are meant. *)

From Stdlib Require Import ZArith List Bool Lia.
From Stdlib Require Import Floats.
From Stdlib Require Import Reals Machin Lra.
Import ListNotations.

Set Implicit Arguments.
Set Warnings "-register-all".

(** ** The numbers of the program *)

Declare Scope js_scope.
Delimit Scope js_scope with js.

(** [dec m k] is the decimal literal [m * 10^-k]; [neg] is the unary minus;
    [gtb] is [>]; [truthy] is
    the [ToBoolean] conversion that [||] applies to its left operand. *)
Class JSNumber (T : Type) : Type := {
  dec : Z -> nat -> T;
  add : T -> T -> T;
  sub : T -> T -> T;
  mul : T -> T -> T;
  div : T -> T -> T;
  neg : T -> T;
  gtb : T -> T -> bool;
  truthy : T -> bool;
  Math_PI : T;
  Math_abs : T -> T;
  Math_sqrt : T -> T;
  Math_sin : T -> T;
  Math_cos : T -> T;
  Math_pow : T -> T -> T
}.

Infix "+" := add : js_scope.
Infix "-" := sub : js_scope.
Infix "*" := mul : js_scope.
Infix "/" := div : js_scope.
Infix ">?" := gtb (at level 70, no associativity) : js_scope.

(** Integer literals. *)
Definition int {T} `{JSNumber T} (m : Z) : T := dec m 0.

(** *** Binary64 *)

(** The three library functions that ECMAScript leaves to the engine
    ("implementation-approximated"). *)
Record MathImpl : Type := {
  impl_sin : float -> float;
  impl_cos : float -> float;
  impl_pow : float -> float -> float
}.

Definition float_of_Z (m : Z) : float :=
  match m with
  | Z0 => 0%float
  | Zpos _ => PrimFloat.of_uint63 (Uint63.of_Z m)
  | Zneg p => PrimFloat.opp (PrimFloat.of_uint63 (Uint63.of_Z (Zpos p)))
  end.

(** A decimal literal whose digits and power of ten are both below [2^53] is
    the correctly rounded quotient of two exact integers, which is the double
    the JavaScript parser produces for it. *)
Definition float_dec (m : Z) (k : nat) : float :=
  match k with
  | O => float_of_Z m
  | S _ => PrimFloat.div (float_of_Z m) (float_of_Z (10 ^ Z.of_nat k))
  end.

(** [ToBoolean] of a Number: false exactly on [+0], [-0] and [NaN]. *)
Definition float_truthy (x : float) : bool :=
  negb (PrimFloat.eqb x 0 || PrimFloat.is_nan x).

Definition JSFloat (impl : MathImpl) : JSNumber float := {|
  dec := float_dec;
  add := PrimFloat.add;
  sub := PrimFloat.sub;
  mul := PrimFloat.mul;
  div := PrimFloat.div;
  neg := PrimFloat.opp;
  gtb := fun x y => PrimFloat.ltb y x;
  truthy := float_truthy;
  Math_PI := float_dec 3141592653589793 15;
  Math_abs := PrimFloat.abs;
  Math_sqrt := PrimFloat.sqrt;
  Math_sin := impl_sin impl;
  Math_cos := impl_cos impl;
  Math_pow := impl_pow impl
|}.

(** *** Exact reals *)

Definition real_dec (m : Z) (k : nat) : R := (IZR m / IZR (10 ^ Z.of_nat k))%R.

Definition real_gtb (x y : R) : bool := if Rlt_dec y x then true else false.

Definition real_truthy (x : R) : bool := if Req_dec_T x 0 then false else true.

(** [Rpower] agrees with [Math.pow] on positive bases only; the statements
    read at this instance keep to them. *)
#[export] Instance JSReal : JSNumber R := {
  dec := real_dec;
  add := Rplus;
  sub := Rminus;
  mul := Rmult;
  div := Rdiv;
  neg := Ropp;
  gtb := real_gtb;
  truthy := real_truthy;
  Math_PI := PI;
  Math_abs := Rabs;
  Math_sqrt := sqrt;
  Math_sin := sin;
  Math_cos := cos;
  Math_pow := Rpower
}.

(** ** three.js vectors *)

Module Vector3.
Record t (T : Type) : Type := mk { x : T; y : T; z : T }.
Arguments mk {T} _ _ _.
Arguments x {T} _.
Arguments y {T} _.
Arguments z {T} _.

Section Ops.
Context {T : Type} `{JSNumber T}.

Definition multiplyScalar (v : t T) (s : T) : t T :=
  mk (x v * s)%js (y v * s)%js (z v * s)%js.

Definition divide (v u : t T) : t T :=
  mk (x v / x u)%js (y v / y u)%js (z v / z u)%js.

Definition set (x0 y0 z0 : T) : t T := mk x0 y0 z0.

Definition origin : t T := mk (int 0) (int 0) (int 0).

Definition ones : t T := mk (int 1) (int 1) (int 1).
End Ops.
End Vector3.

(** ** The data model *)

(** [elements: { a, e, i, L, w, o }]. *)
Module Elements.
Record t (T : Type) : Type := mk { a : T; e : T; i : T; L : T; w : T; o : T }.
Arguments mk {T} _ _ _ _ _ _.
Arguments a {T} _.
Arguments e {T} _.
Arguments i {T} _.
Arguments L {T} _.
Arguments w {T} _.
Arguments o {T} _.
End Elements.

(** An entry of [CELESTIAL_BODIES]; an absent [distanceFactor] is [None], an
    absent [isStar] is [false], an absent [satellites] is [[]]. *)
Inductive BodyData (T : Type) : Type :=
  mkBodyData (radius : T) (elements : Elements.t T) (rotPeriod : T)
             (distanceFactor : option T) (isStar : bool)
             (satellitesData : list (BodyData T)).

Section BodyDataFields.
Context {T : Type}.
Definition radius (d : BodyData T) : T := let '(mkBodyData r _ _ _ _ _) := d in r.
Definition elements (d : BodyData T) : Elements.t T := let '(mkBodyData _ el _ _ _ _) := d in el.
Definition rotPeriod (d : BodyData T) : T := let '(mkBodyData _ _ p _ _ _) := d in p.
Definition distanceFactor (d : BodyData T) : option T := let '(mkBodyData _ _ _ f _ _) := d in f.
Definition isStar (d : BodyData T) : bool := let '(mkBodyData _ _ _ _ s _) := d in s.
Definition satellitesData (d : BodyData T) : list (BodyData T) :=
  let '(mkBodyData _ _ _ _ _ l) := d in l.
End BodyDataFields.

(** The part of a [THREE.Mesh] that the physics writes. *)
Record Mesh (T : Type) : Type := mkMesh {
  position : Vector3.t T;
  rotation_y : T;
  scale : Vector3.t T
}.

(** A [THREE.LineLoop]: its points and its scale. *)
Record OrbitLine (T : Type) : Type := mkOrbitLine {
  points : list (Vector3.t T);
  lineScale : Vector3.t T
}.

(** The object [{ mesh, data, orbitLine, satellites }] that
    [createCelestialBody] returns; [orbitLine] is [null] when [None]. *)
Inductive BodyObj (T : Type) : Type :=
  mkBodyObj (mesh : Mesh T) (data : BodyData T) (orbitLine : option (OrbitLine T))
            (satellites : list (BodyObj T)).

Section BodyObjFields.
Context {T : Type}.
Definition mesh (b : BodyObj T) : Mesh T := let '(mkBodyObj m _ _ _) := b in m.
Definition data (b : BodyObj T) : BodyData T := let '(mkBodyObj _ d _ _) := b in d.
Definition orbitLine (b : BodyObj T) : option (OrbitLine T) := let '(mkBodyObj _ _ l _) := b in l.
Definition satellites (b : BodyObj T) : list (BodyObj T) := let '(mkBodyObj _ _ _ s) := b in s.
End BodyObjFields.

(** The two fields of [SETTINGS] that the physics reads. *)
Record Settings (T : Type) : Type := mkSettings {
  planetVisualScale : T;
  universeScale : T
}.

(** A [Date]: its time value (milliseconds since the Unix epoch, UTC) and
    what [getTimezoneOffset] answers for it in the host's time zone. *)
Record Date (T : Type) : Type := mkDate {
  getTime : T;
  getTimezoneOffset : T
}.

(** ** Loops *)

(** A [while] loop, run with fuel: [None] when the fuel runs out first. *)
Fixpoint while_fuel {S : Type} (cond : S -> bool) (body : S -> S) (fuel : nat) (s : S)
  : option S :=
  if cond s then
    match fuel with
    | O => None
    | Datatypes.S fuel' => while_fuel cond body fuel' (body s)
    end
  else Some s.

(** ** The program *)

Section Program.
Context {T : Type} `{JSNumber T}.

Definition SATELLITE_DIST_FACTOR : T := dec 500 1.

Definition DEG_TO_RAD : T := (Math_PI / int 180)%js.

(** [a || b] on an optional Number [a]. *)
Definition or_default (a : option T) (b : T) : T :=
  match a with
  | Some v => if truthy v then v else b
  | None => b
  end.

Definition getJulianDate (date : Date T) : T :=
  (getTime date / int 86400000 - getTimezoneOffset date / int 1440 + dec 24405875 1)%js.

(** *** The Kepler solver: the [while] loop of [getOrbitPosition] *)

Record KeplerState : Type := mkKepler { ks_E : T; ks_delta : T; ks_iter : nat }.

Definition kepler_init (M : T) : KeplerState := mkKepler M (dec 10 1) 0.

Definition kepler_cond (st : KeplerState) : bool :=
  (Math_abs (ks_delta st) >? dec 1 6)%js && (ks_iter st <? 100)%nat.

Definition kepler_body (e M : T) (st : KeplerState) : KeplerState :=
  let E := ks_E st in
  let delta := ((E - e * Math_sin E - M) / (int 1 - e * Math_cos E))%js in
  mkKepler (E - delta)%js delta (S (ks_iter st)).

Definition kepler_loop (e M : T) (fuel : nat) : option KeplerState :=
  while_fuel kepler_cond (kepler_body e M) fuel (kepler_init M).

(** The same loop by recursion on the iterations left, [100 - iter]. *)
Fixpoint kepler_steps (e M : T) (left : nat) (st : KeplerState) : KeplerState :=
  match left with
  | O => st
  | S left' =>
      if (Math_abs (ks_delta st) >? dec 1 6)%js
      then kepler_steps e M left' (kepler_body e M st)
      else st
  end.

Definition solveKepler (e M : T) : T := ks_E (kepler_steps e M 100 (kepler_init M)).

(** *** The orbit frame transform: the rest of [getOrbitPosition] *)

Definition orbitFrame (elements : Elements.t T) (E : T) : Vector3.t T :=
  let e := Elements.e elements in
  let a := Elements.a elements in
  let X_orb := (a * (Math_cos E - e))%js in
  let Y_orb := (a * Math_sqrt (int 1 - e * e) * Math_sin E)%js in
  let i_rad := (Elements.i elements * DEG_TO_RAD)%js in
  let o_rad := (Elements.o elements * DEG_TO_RAD)%js in
  let w_rad := ((Elements.w elements - Elements.o elements) * DEG_TO_RAD)%js in
  let cos_o := Math_cos o_rad in
  let sin_o := Math_sin o_rad in
  let cos_w := Math_cos w_rad in
  let sin_w := Math_sin w_rad in
  let cos_i := Math_cos i_rad in
  let sin_i := Math_sin i_rad in
  let x_ecl :=
    ((cos_o * cos_w - sin_o * sin_w * cos_i) * X_orb +
     (neg cos_o * sin_w - sin_o * cos_w * cos_i) * Y_orb)%js in
  let y_ecl :=
    ((sin_o * cos_w + cos_o * sin_w * cos_i) * X_orb +
     (neg sin_o * sin_w + cos_o * cos_w * cos_i) * Y_orb)%js in
  let z_ecl := (sin_w * sin_i * X_orb + cos_w * sin_i * Y_orb)%js in
  Vector3.mk x_ecl z_ecl y_ecl.

Definition getOrbitPosition (elements : Elements.t T) (M_degrees : T) : Vector3.t T :=
  let e := Elements.e elements in
  let M := (M_degrees * DEG_TO_RAD)%js in
  orbitFrame elements (solveKepler e M).

Definition getMeanAnomaly (elements : Elements.t T) (jd : T) : T :=
  let n := (dec 9856076686 10 / Math_pow (Elements.a elements) (dec 15 1))%js in
  let daysSinceJ2000 := (jd - dec 24515450 1)%js in
  let currentL := (Elements.L elements + n * daysSinceJ2000)%js in
  (currentL - Elements.w elements)%js.

(** [createCelestialBody(data, parentObject)].  The new mesh is added to
    [parentObject]; the embedding keeps that link in the tree itself: the
    meshes of [satellites b] are the children of [mesh b], and the meshes of
    the bodies of [activeBodies] are children of the scene, which is no mesh.
    A new [Mesh] or [LineLoop] has position [(0, 0, 0)], no rotation and
    scale [(1, 1, 1)]. *)
Fixpoint createCelestialBody (d : BodyData T) : BodyObj T :=
  let '(mkBodyData r el _ _ _ sats) := d in
  let mesh := mkMesh Vector3.origin (int 0) (Vector3.set r r r) in
  let orbitLine :=
    if (Elements.a el >? int 0)%js then
      let segments := int 128 in
      Some (mkOrbitLine
              (map (fun i => getOrbitPosition el (int (Z.of_nat i) / segments * int 360)%js)
                   (seq 0 129))
              Vector3.ones)
    else None in
  mkBodyObj mesh d orbitLine (map createCelestialBody sats).

Definition createSolarSystem (bodies : list (BodyData T)) : list (BodyObj T) :=
  map createCelestialBody bodies.

Variable SETTINGS : Settings T.

(** [updateBodyPhysics(bodyObj, jd, hoursPassed)].  [parent] is
    [mesh.parent] when that is a mesh, in its state at the time of the call:
    [isSatellite] is [mesh.parent && mesh.parent.isMesh].  The parent's mesh
    is written before the satellites are visited, so they see its new
    scale. *)
Fixpoint updateBodyPhysics (parent : option (Mesh T)) (bodyObj : BodyObj T)
         (jd hoursPassed : T) : BodyObj T :=
  let '(mkBodyObj mesh data orbitLine satellites) := bodyObj in
  let position' :=
    if negb (isStar data) then
      let currentM := getMeanAnomaly (elements data) jd in
      let pos := getOrbitPosition (elements data) currentM in
      let pos := Vector3.multiplyScalar pos (universeScale SETTINGS) in
      match parent with
      | Some p =>
          let pos :=
            Vector3.multiplyScalar pos (or_default (distanceFactor data) SATELLITE_DIST_FACTOR) in
          Vector3.divide pos (scale p)
      | None => pos
      end
    else position mesh in
  let rotationAngle := (hoursPassed / rotPeriod data * (Math_PI * int 2))%js in
  let globalScale := (radius data * planetVisualScale SETTINGS)%js in
  let scale' :=
    match parent with
    | Some p =>
        let parentScale := Vector3.x (scale p) in
        let relativeScale := (globalScale / parentScale)%js in
        Vector3.set relativeScale relativeScale relativeScale
    | None => Vector3.set globalScale globalScale globalScale
    end in
  let orbitLine' :=
    match orbitLine with
    | Some line =>
        match parent with
        | Some p =>
            let parentScale := Vector3.x (scale p) in
            let desiredOrbitScale :=
              (universeScale SETTINGS
               * or_default (distanceFactor data) SATELLITE_DIST_FACTOR)%js in
            let relativeOrbitScale := (desiredOrbitScale / parentScale)%js in
            Some (mkOrbitLine (points line)
                    (Vector3.set relativeOrbitScale relativeOrbitScale relativeOrbitScale))
        | None =>
            Some (mkOrbitLine (points line)
                    (Vector3.set (universeScale SETTINGS) (universeScale SETTINGS)
                       (universeScale SETTINGS)))
        end
    | None => None
    end in
  let mesh' := mkMesh position' rotationAngle scale' in
  mkBodyObj mesh' data orbitLine'
    (map (fun sat => updateBodyPhysics (Some mesh') sat jd hoursPassed) satellites).

(** [updatePhysics()], on [STATE.simulationDate] and [STATE.activeBodies];
    the meteoroids, which no body reads, are left out. *)
Definition updatePhysics (simulationDate : Date T) (activeBodies : list (BodyObj T))
  : list (BodyObj T) :=
  let jd := getJulianDate simulationDate in
  let hoursPassed := (getTime simulationDate / int 3600000)%js in
  map (fun body => updateBodyPhysics None body jd hoursPassed) activeBodies.

End Program.

(** ** A reference engine for the binary64 instance

    ECMAScript fixes [Math.sin], [Math.cos] and [Math.pow] on the special
    values ([NaN], the infinities, the zeros) and leaves the rest to the
    engine.  [RefMath] is a small engine of that kind: NaN on a NaN or an
    infinity, and elsewhere an approximation by range reduction and Taylor
    polynomials (for [pow]: by repeated square roots and squarings, which
    sends [+0] to [+0]).  It makes the binary64 instance executable. *)

Module RefMath.
Local Open Scope float_scope.

Definition two_pi : float := float_dec 6283185307179586 15.

(** The integer nearest to a finite [x] (halves go up). *)
Definition round_int (x : float) : float :=
  let h := x + float_dec 5 1 in
  match Prim2SF h with
  | S754_finite s m e =>
      if (0 <=? e)%Z then h
      else
        let q := Z.shiftr (Zpos m) (- e) in
        let exact := Z.eqb (Z.shiftl q (- e)) (Zpos m) in
        if s then float_of_Z (- (if exact then q else q + 1))
        else float_of_Z q
  | _ => h
  end.

Definition reduce (x : float) : float := x - two_pi * round_int (x / two_pi).

Definition taylor (r2 : float) (first : Z) : float :=
  fold_right
    (fun k acc => 1 - r2 / float_of_Z ((2 * k + first) * (2 * k + first + 1)) * acc)
    1
    (map Z.of_nat (seq 0 14)).

Definition sin (x : float) : float :=
  if is_finite x then let r := reduce x in r * taylor (r * r) 2 else nan.

Definition cos (x : float) : float :=
  if is_finite x then let r := reduce x in taylor (r * r) 1 else nan.

Definition pow_pos (x : float) (p : positive) : float := Pos.iter_op PrimFloat.mul p x.

(** [m * 2^e] with [m] odd. *)
Fixpoint odd_part (m : positive) (e : Z) : positive * Z :=
  match m with
  | xO m' => odd_part m' (e + 1)
  | _ => (m, e)
  end.

Definition pow (x y : float) : float :=
  match Prim2SF y with
  | S754_nan => nan
  | S754_zero _ => 1
  | S754_infinity s =>
      if is_nan x then nan
      else if abs x =? 1 then nan
      else if xorb s (1 <? abs x) then infinity else 0
  | S754_finite s m0 e0 =>
      let '(m, e) := odd_part m0 e0 in
      let root := if (0 <=? e)%Z then x else Z.iter (- e) PrimFloat.sqrt (abs x) in
      let base := if (0 <=? e)%Z then Z.iter e (fun t => t * t) x else root in
      let r :=
        if (e <? 0)%Z && (x <? 0) && negb (is_infinity x) then nan
        else pow_pos base m in
      if s then 1 / r else r
  end.

Definition impl : MathImpl := {| impl_sin := sin; impl_cos := cos; impl_pow := pow |}.
End RefMath.

(** The binary64 instance with the reference engine. *)
Definition F64 : JSNumber float := JSFloat RefMath.impl.

(** ** The configured bodies used below ([CELESTIAL_BODIES]) *)

Section Bodies.
Context {T : Type} `{JSNumber T}.

Definition Sun : BodyData T :=
  mkBodyData (dec 5 2)
    (Elements.mk (int 0) (int 0) (int 0) (int 0) (int 0) (int 0))
    (int 600) None true [].

Definition Moon : BodyData T :=
  mkBodyData (dec 35 4)
    (Elements.mk (dec 257 5) (dec 549 4) (dec 5145 3) (dec 21831617 5) (dec 31815 2)
       (dec 12508 2))
    (dec 6557 1) (Some (dec 500 1)) false [].

Definition Earth : BodyData T :=
  mkBodyData (dec 13 3)
    (Elements.mk (dec 10 1) (dec 16708 6) (dec 5 5) (dec 10046435 5) (dec 10294719 5)
       (int 0))
    (dec 239 1) None false [Moon].

Definition DEFAULTS : Settings T := mkSettings (dec 50 1) (dec 20 1).
End Bodies.

(** ** The statements of the specification, in its own words *)

Section SpecWords.
Context {T : Type} `{JSNumber T}.

(** "Mean motion [n = 0.9856076686 / a^1.5]". *)
Definition spec_meanMotion (a : T) : T := (dec 9856076686 10 / Math_pow a (dec 15 1))%js.

(** "Current mean longitude [L_now = L + n (jd - J2000)]; mean anomaly
    [M = L_now - w]". *)
Definition spec_meanAnomaly (el : Elements.t T) (jd : T) : T :=
  let J2000 := dec 24515450 1 in
  let L_now := (Elements.L el + spec_meanMotion (Elements.a el) * (jd - J2000))%js in
  (L_now - Elements.w el)%js.

(** "Perifocal-plane coordinates: [X = a (cos E - e)], [Y = a sqrt(1 - e^2) sin E]". *)
Definition spec_perifocal (el : Elements.t T) (E : T) : Vector3.t T :=
  let a := Elements.a el in
  let e := Elements.e el in
  Vector3.mk (a * (Math_cos E - e))%js (a * Math_sqrt (int 1 - e * e) * Math_sin E)%js (int 0).

(** The rotation by [t] about the third axis, and about the first. *)
Definition rotZ (t : T) (v : Vector3.t T) : Vector3.t T :=
  Vector3.mk (Math_cos t * Vector3.x v - Math_sin t * Vector3.y v)%js
             (Math_sin t * Vector3.x v + Math_cos t * Vector3.y v)%js
             (Vector3.z v).

Definition rotX (t : T) (v : Vector3.t T) : Vector3.t T :=
  Vector3.mk (Vector3.x v)
             (Math_cos t * Vector3.y v - Math_sin t * Vector3.z v)%js
             (Math_sin t * Vector3.y v + Math_cos t * Vector3.z v)%js.

Definition radians (degrees : T) : T := (degrees * (Math_PI / int 180))%js.

(** "Rotate into the shared ecliptic frame using three composed rotations
    (argument of periapsis [w' = w - o]; inclination [i]; ascending node
    [o])". *)
Definition spec_ecliptic (el : Elements.t T) (E : T) : Vector3.t T :=
  let w' := (Elements.w el - Elements.o el)%js in
  rotZ (radians (Elements.o el))
    (rotX (radians (Elements.i el))
       (rotZ (radians w') (spec_perifocal el E))).

(** "Axis remap: the ecliptic [z] component is mapped to the rendering
    frame's vertical axis, ecliptic [x, y] map to the horizontal plane". *)
Definition spec_remap (ecl : Vector3.t T) : Vector3.t T :=
  Vector3.mk (Vector3.x ecl) (Vector3.z ecl) (Vector3.y ecl).

(** "Standard Julian Date" of an instant given in milliseconds since the
    Unix epoch. *)
Definition standardJulianDate (ms : T) : T := (ms / int 86400000 + dec 24405875 1)%js.
End SpecWords.

(** "[position = OrbitFrameTransform(E, elements) * universeScale]; if the body
    is a satellite, additionally multiply by [distanceFactor] (default constant
    if unset) and divide by the parent's current visual scale factor". *)
Definition spec_place {T} `{JSNumber T} (S : Settings T) (parent : option (Mesh T))
  (d : BodyData T) (orbit : Vector3.t T) : Vector3.t T :=
  let scaled := Vector3.multiplyScalar orbit (universeScale S) in
  match parent with
  | Some p =>
      Vector3.divide
        (Vector3.multiplyScalar scaled (or_default (distanceFactor d) SATELLITE_DIST_FACTOR))
        (scale p)
  | None => scaled
  end.

(** The Sun's numbers on a body that is not flagged [isStar]. *)
Definition unflaggedSun {T} `{JSNumber T} : BodyData T :=
  mkBodyData (dec 5 2)
    (Elements.mk (int 0) (int 0) (int 0) (int 0) (int 0) (int 0))
    (int 600) None false [].

(** A Moon whose [distanceFactor] is configured as [0]. *)
Definition zeroFactorMoon {T} `{JSNumber T} : BodyData T :=
  mkBodyData (dec 35 4)
    (Elements.mk (dec 257 5) (dec 549 4) (dec 5145 3) (dec 21831617 5) (dec 31815 2)
       (dec 12508 2))
    (dec 6557 1) (Some (int 0)) false [].

(** The satellites' world-space scales: "parent mesh scale multiplied by the
    satellite's relative scale". *)
Definition worldScales {T} `{JSNumber T} (b : BodyObj T) : list T :=
  map (fun sat => (Vector3.x (scale (mesh b)) * Vector3.x (scale (mesh sat)))%js) (satellites b).

Definition relativeScales {T} (b : BodyObj T) : list T :=
  map (fun sat => Vector3.x (scale (mesh sat))) (satellites b).

(** One tick of a top-level Earth with its Moon at J2000, under a given
    [planetVisualScale]. *)
Definition earthTick {T} `{JSNumber T} (pvs : T) : BodyObj T :=
  updateBodyPhysics (mkSettings pvs (dec 20 1)) None (createCelestialBody Earth)
    (dec 24515450 1) (int 0).

(** A sequence of ticks on one body. *)
Definition ticks {T} `{JSNumber T} (S : Settings T) (parent : option (Mesh T))
  (b : BodyObj T) (times : list (T * T)) : BodyObj T :=
  fold_left (fun b t => updateBodyPhysics S parent b (fst t) (snd t)) times b.

(** The Earth-like fixture of the specification: [a=1.0, e=0.0167,
    i=0.00005, L=100.46435, w=102.94719, o=0]. *)
Definition earthLike {T} `{JSNumber T} : Elements.t T :=
  Elements.mk (dec 10 1) (dec 167 4) (dec 5 5) (dec 10046435 5) (dec 10294719 5) (int 0).

Definition J2000 {T} `{JSNumber T} : T := dec 24515450 1.

(** One pass of the loop body on the eccentric anomaly, in exact reals. *)
Definition newton (e M E : R) : R := (E - (E - e * sin E - M) / (1 - e * cos E))%R.

(** The residual of Kepler's equation, [E - e sin E - M], and the eccentric
    anomaly after [k] passes of the loop from [E = M]. *)
Definition residual (e M E : R) : R := (E - e * sin E - M)%R.

Definition anomaly (e M : R) (k : nat) : R := Nat.iter k (newton e M) M.

(** The fixture's mean anomaly, argument of periapsis and inclination in
    radians. *)
Definition earthM : R := (- (248284 / 100000) * (PI / 180))%R.
Definition earthW : R := ((10294719 / 100000 - 0) * (PI / 180))%R.
Definition earthI : R := (5 / 100000 * (PI / 180))%R.

(** ** Binary64: special values *)

(** A NaN or an infinity. *)
Definition nonfinite (x : float) : Prop :=
  Prim2SF x = S754_nan \/ exists s, Prim2SF x = S754_infinity s.

(** What ECMAScript fixes of [Math.sin], [Math.cos] and [Math.pow] and the
    code can meet: the sine and the cosine of a NaN or an infinity are NaN,
    and [+0] to a positive power is [+0]. *)
Definition conforms (impl : MathImpl) : Prop :=
  (forall x, is_finite x = false -> impl_sin impl x = nan) /\
  (forall x, is_finite x = false -> impl_cos impl x = nan) /\
  impl_pow impl 0%float (float_dec 15 1) = 0%float.

(** ** The rest of [CELESTIAL_BODIES] *)

Section Configuration.
Context {T : Type} `{JSNumber T}.

Definition Mercury : BodyData T :=
  mkBodyData (dec 5 3)
    (Elements.mk (dec 387098 6) (dec 20563 5) (dec 700487 5) (dec 25225084 5) (dec 7745645 5)
       (dec 4833167 5))
    (dec 14076 1) None false [].

Definition Venus : BodyData T :=
  mkBodyData (dec 12 3)
    (Elements.mk (dec 723332 6) (dec 6773 6) (dec 339471 5) (dec 18197973 5) (dec 13153298 5)
       (dec 7668069 5))
    (neg (dec 58325 1)) None false [].

Definition Mars : BodyData T :=
  mkBodyData (dec 7 3)
    (Elements.mk (dec 1523679 6) (dec 934 4) (dec 185 2) (neg (dec 455 2)) (dec 33604 2)
       (dec 4957854 5))
    (dec 246 1) None false [].

Definition Europa : BodyData T :=
  mkBodyData (dec 35 4)
    (Elements.mk (dec 449 5) (dec 9 3) (dec 47 2) (dec 20039 2) (dec 440 1) (dec 219106 3))
    (dec 852 1) (Some (dec 1000 1)) false [].

Definition Jupiter : BodyData T :=
  mkBodyData (dec 4 2)
    (Elements.mk (dec 5204267 6) (dec 48498 6) (dec 13053 4) (dec 3440438 5) (dec 1475385 5)
       (dec 10055615 5))
    (dec 99 1) None false [Europa].

Definition Saturn : BodyData T :=
  mkBodyData (dec 35 3)
    (Elements.mk (dec 9582017 6) (dec 55546 6) (dec 2485 3) (dec 4994432 5) (dec 9243194 5)
       (dec 11371504 5))
    (dec 107 1) None false [].

Definition Uranus : BodyData T :=
  mkBodyData (dec 2 2)
    (Elements.mk (dec 192184 4) (dec 47318 6) (dec 773 3) (dec 31323218 5) (dec 17096424 5)
       (dec 7422988 5))
    (neg (dec 172 1)) None false [].

Definition Neptune : BodyData T :=
  mkBodyData (dec 2 2)
    (Elements.mk (dec 300709 4) (dec 8606 6) (dec 177 2) (neg (dec 5512 2)) (dec 4497135 5)
       (dec 1317806 4))
    (dec 161 1) None false [].

Definition CELESTIAL_BODIES : list (BodyData T) :=
  [Sun; Mercury; Venus; Earth; Mars; Jupiter; Saturn; Uranus; Neptune].
End Configuration.


(** ** The meteoroid belt *)

(** The methods of [THREE.Vector3] that [createMeteoroids] calls:
    [normalize()] is [divideScalar(length() || 1)] and [divideScalar(s)] is
    [multiplyScalar(1 / s)]. *)
Module Vec3.
Section Ops.
Context {T : Type} `{JSNumber T}.

Definition length (v : Vector3.t T) : T :=
  Math_sqrt (Vector3.x v * Vector3.x v + Vector3.y v * Vector3.y v
             + Vector3.z v * Vector3.z v)%js.

Definition divideScalar (v : Vector3.t T) (s : T) : Vector3.t T :=
  Vector3.multiplyScalar v (int 1 / s)%js.

Definition normalize (v : Vector3.t T) : Vector3.t T :=
  divideScalar v (let l := length v in if truthy l then l else int 1).

Definition setScalar (s : T) : Vector3.t T := Vector3.set s s s.
End Ops.
End Vec3.

(** An entry of [STATE.meteorSystem.data]. *)
Module Meteor.
Record t (T : Type) : Type := mk {
  orbitRadius : T;
  angle : T;
  yOffset : T;
  speed : T;
  rotationAxis : Vector3.t T;
  rotationSpeed : T;
  currentRotation : T
}.
End Meteor.

(** What [updateMatrix()] composes the matrix of a [THREE.Object3D] from:
    its position, its Euler rotation and its scale.  An instance matrix of
    the [InstancedMesh] is kept as the three it was composed from. *)
Module Object3D.
Record t (T : Type) : Type := mk {
  position : Vector3.t T;
  rotation : Vector3.t T;
  scale : Vector3.t T
}.
End Object3D.

(** [STATE.meteorSystem]: [mesh] is [null] when [None], and otherwise the
    instance matrices of the [InstancedMesh]. *)
Module MeteorSystem.
Record t (T : Type) : Type := mk {
  mesh : option (list (Object3D.t T));
  data : list (Meteor.t T)
}.
End MeteorSystem.

(** [instancedMesh.setMatrixAt(i, matrix)] writes into a typed array of fixed
    length: a write past its end is dropped. *)
Fixpoint setMatrixAt {A : Type} (matrices : list A) (i : nat) (matrix : A) : list A :=
  match matrices, i with
  | [], _ => []
  | _ :: rest, O => matrix :: rest
  | first :: rest, S i' => first :: setMatrixAt rest i' matrix
  end.

(** [Math.random()] reads a stream of draws; the state is the position in
    the stream. *)
Definition Rand (T A : Type) : Type := (nat -> T) -> nat -> A * nat.

Definition ret {T A : Type} (a : A) : Rand T A := fun _ n => (a, n).

Definition bind {T A B : Type} (m : Rand T A) (f : A -> Rand T B) : Rand T B :=
  fun rnd n => let '(a, n') := m rnd n in f a rnd n'.

Definition Math_random {T : Type} : Rand T T := fun rnd n => (rnd n, S n).

Notation "x <- m ;; f" := (bind m (fun x => f))
  (at level 61, m at next level, right associativity).

Section Meteoroids.
Context {T : Type} `{JSNumber T}.

(** The [forEach] over [CELESTIAL_BODIES] in the loop of [createMeteoroids]:
    [collision] ends [true] when some body with [a > 0] has its semi-major
    axis within [0.3] of the radius. *)
Definition collides (bodies : list (BodyData T)) (orbitRadius : T) : bool :=
  existsb
    (fun body =>
       (Elements.a (elements body) >? int 0)%js
       && (dec 3 1 >? Math_abs (orbitRadius - Elements.a (elements body)))%js)
    bodies.

(** One pass of the loop [while (collision && attempts < 10)] draws a radius. *)
Definition drawRadius : Rand T T :=
  r <- Math_random ;;
  if (r >? dec 3 1)%js
  then (r' <- Math_random ;; ret (dec 20 1 + r' * dec 25 1)%js)
  else (r' <- Math_random ;; ret (dec 300 1 + r' * dec 200 1)%js).

(** The loop itself.  [collision] starts [true] and [attempts] at [0], so the
    body runs once at least; [left] is the number of passes that may follow
    the one at hand, [9 - attempts]. *)
Fixpoint pickOrbitRadius (bodies : list (BodyData T)) (left : nat) : Rand T T :=
  orbitRadius <- drawRadius ;;
  if collides bodies orbitRadius then
    match left with
    | O => ret orbitRadius
    | S left' => pickOrbitRadius bodies left'
    end
  else ret orbitRadius.

(** The body of the [for] loop of [createMeteoroids]: the entry pushed on
    [dataArray] and the matrix set on the instance.  The local [dummy] is a
    new [Object3D], whose rotation nothing writes. *)
Definition createMeteoroid (bodies : list (BodyData T)) : Rand T (Meteor.t T * Object3D.t T) :=
  orbitRadius <- pickOrbitRadius bodies 9 ;;
  r <- Math_random ;;
  let angle := (r * Math_PI * int 2)%js in
  r <- Math_random ;;
  let yOffset := ((r - dec 5 1) * dec 2 1 * orbitRadius)%js in
  let speed := (dec 2 2 / Math_sqrt orbitRadius)%js in
  rx <- Math_random ;;
  ry <- Math_random ;;
  rz <- Math_random ;;
  let rotationAxis := Vec3.normalize (Vector3.mk rx ry rz) in
  r <- Math_random ;;
  let rotationSpeed := (r * dec 5 2)%js in
  let x := (Math_cos angle * orbitRadius)%js in
  let z := (Math_sin angle * orbitRadius)%js in
  r <- Math_random ;;
  ret (Meteor.mk orbitRadius angle yOffset speed rotationAxis rotationSpeed (int 0),
       Object3D.mk (Vector3.set x yOffset z) Vector3.origin (Vec3.setScalar (int 1 + r)%js)).

Fixpoint createMeteoroids_loop (bodies : list (BodyData T)) (count : nat)
  : Rand T (list (Meteor.t T * Object3D.t T)) :=
  match count with
  | O => ret []
  | S count' =>
      item <- createMeteoroid bodies ;;
      items <- createMeteoroids_loop bodies count' ;;
      ret (item :: items)
  end.

(** [createMeteoroids()], on [SETTINGS.meteorCount] (a count, as the slider
    gives it), [CELESTIAL_BODIES] and [STATE.meteorSystem].  With a count of
    [0] the function returns before it writes [STATE.meteorSystem.mesh]: a
    mesh that was there stays there. *)
Definition createMeteoroids (meteorCount : nat) (bodies : list (BodyData T))
  (meteorSystem : MeteorSystem.t T) : Rand T (MeteorSystem.t T) :=
  let meteorSystem :=
    match MeteorSystem.mesh meteorSystem with
    | Some _ => MeteorSystem.mk (MeteorSystem.mesh meteorSystem) []
    | None => meteorSystem
    end in
  if (meteorCount =? 0)%nat then ret meteorSystem
  else
    items <- createMeteoroids_loop bodies meteorCount ;;
    ret (MeteorSystem.mk (Some (map snd items)) (map fst items)).

(** [TMP_DUMMY], a [new THREE.Object3D()]: [updateMeteoroids] sets its
    position and its rotation, and nothing sets its scale. *)
Definition TMP_DUMMY : Object3D.t T :=
  Object3D.mk Vector3.origin Vector3.origin Vector3.ones.

Variable SETTINGS : Settings T.
Variable meteorSpeed : T.
Variable speedMultiplier : T.

(** The body of the loop of [updateMeteoroids]: the entry as it is left, and
    the matrix set on its instance. *)
Definition updateMeteoroid (d : Meteor.t T) : Meteor.t T * Object3D.t T :=
  let dummy := TMP_DUMMY in
  let universeScale := universeScale SETTINGS in
  let timeScale := speedMultiplier in
  let moveSpeed := (Meteor.speed d * timeScale * meteorSpeed * dec 1 2)%js in
  let angle := (Meteor.angle d + moveSpeed)%js in
  let currentRotation :=
    (Meteor.currentRotation d
     + Meteor.rotationSpeed d * (if timeScale >? int 0 then int 1 else int 0))%js in
  let r := (Meteor.orbitRadius d * universeScale)%js in
  let x := (Math_cos angle * r)%js in
  let z := (Math_sin angle * r)%js in
  let y := (Meteor.yOffset d * universeScale)%js in
  (Meteor.mk (Meteor.orbitRadius d) angle (Meteor.yOffset d) (Meteor.speed d)
     (Meteor.rotationAxis d) (Meteor.rotationSpeed d) currentRotation,
   Object3D.mk (Vector3.set x y z)
     (Vector3.set (currentRotation * Vector3.x (Meteor.rotationAxis d))%js
        (currentRotation * Vector3.y (Meteor.rotationAxis d))%js
        (currentRotation * Vector3.z (Meteor.rotationAxis d))%js)
     (Object3D.scale dummy)).

(** The loop, from index [i] on. *)
Fixpoint updateMeteoroids_loop (i : nat) (data : list (Meteor.t T))
  (matrices : list (Object3D.t T)) : list (Meteor.t T) * list (Object3D.t T) :=
  match data with
  | [] => ([], matrices)
  | d :: rest =>
      let '(d', matrix) := updateMeteoroid d in
      let '(rest', matrices') := updateMeteoroids_loop (S i) rest (setMatrixAt matrices i matrix) in
      (d' :: rest', matrices')
  end.

Definition updateMeteoroids (meteorSystem : MeteorSystem.t T) : MeteorSystem.t T :=
  match MeteorSystem.mesh meteorSystem with
  | None => meteorSystem
  | Some matrices =>
      let '(data', matrices') :=
        updateMeteoroids_loop 0 (MeteorSystem.data meteorSystem) matrices in
      MeteorSystem.mk (Some matrices') data'
  end.

End Meteoroids.

(** ** The Sun's effects *)

(** An entry of [STATE.sunEffects.flares] with what [animateSun] writes on
    its sprite: the material's rotation and opacity, and the scale. *)
Module Flare.
Record t (T : Type) : Type := mk {
  rotation : T;
  scale : Vector3.t T;
  opacity : T;
  speed : T;
  baseScale : T;
  pulseSpeed : T
}.
End Flare.

(** The corona mesh [STATE.sunEffects.glow]: its uniform [uTime] and its
    scale. *)
Module Glow.
Record t (T : Type) : Type := mk {
  uTime : T;
  scale : Vector3.t T
}.
End Glow.

(** [STATE.sunEffects]; [glow] is [null] when [None]. *)
Module SunEffects.
Record t (T : Type) : Type := mk {
  glow : option (Glow.t T);
  flares : list (Flare.t T)
}.
End SunEffects.

Section Sun.
Context {T : Type} `{JSNumber T}.

(** One pass of the [for] loop of [addSunEffects]; a new [SpriteMaterial] has
    the rotation [0]. *)
Definition addFlare : Rand T (Flare.t T) :=
  r <- Math_random ;;
  let scale := (int 4 + r * int 3)%js in
  r <- Math_random ;;
  let speed := ((r - dec 5 1) * dec 1 2)%js in
  r <- Math_random ;;
  let pulseSpeed := (int 2 + r * int 3)%js in
  ret (Flare.mk (int 0) (Vector3.set scale scale (int 1)) (dec 6 1) speed scale pulseSpeed).

Fixpoint addFlares (count : nat) : Rand T (list (Flare.t T)) :=
  match count with
  | O => ret []
  | S count' =>
      flare <- addFlare ;;
      flares <- addFlares count' ;;
      ret (flare :: flares)
  end.

(** [addSunEffects(sunMesh)], on [STATE.sunEffects]. *)
Definition addSunEffects (sunEffects : SunEffects.t T) : Rand T (SunEffects.t T) :=
  let glow := Glow.mk (int 0) (Vector3.set (dec 10 1) (dec 10 1) (dec 10 1)) in
  flares <- addFlares 5 ;;
  ret (SunEffects.mk (Some glow) (SunEffects.flares sunEffects ++ flares)).

(** [animateSun()], on [STATE.sunEffects], at
    [time = STATE.clock.getElapsedTime()]. *)
Definition animateSun (time : T) (sunEffects : SunEffects.t T) : SunEffects.t T :=
  SunEffects.mk
    (match SunEffects.glow sunEffects with
     | Some _ =>
         let pulse := (dec 10 1 + Math_sin (time * dec 5 1) * dec 2 2)%js in
         Some (Glow.mk time (Vector3.set pulse pulse pulse))
     | None => None
     end)
    (map (fun f =>
            let s := (Flare.baseScale f + Math_sin (time * Flare.pulseSpeed f) * dec 2 1)%js in
            Flare.mk (Flare.rotation f + Flare.speed f)%js (Vector3.set s s s)
              (dec 4 1 + Math_sin (time * int 5) * dec 1 1)%js
              (Flare.speed f) (Flare.baseScale f) (Flare.pulseSpeed f))
       (SunEffects.flares sunEffects)).
End Sun.

(** The componentwise product, [THREE.Vector3.multiply]: how the scale of an
    object acts on a point of its geometry. *)
Definition scaled {T} `{JSNumber T} (v s : Vector3.t T) : Vector3.t T :=
  Vector3.mk (Vector3.x v * Vector3.x s)%js (Vector3.y v * Vector3.y s)%js
    (Vector3.z v * Vector3.z s)%js.

(** A body and the bodies below it, in the order in which
    [updateBodyPhysics] visits them. *)
Fixpoint bodiesOf {T : Type} (b : BodyObj T) : list (BodyObj T) :=
  let '(mkBodyObj _ _ _ sats) := b in b :: flat_map bodiesOf sats.

(** The point of a body's orbit at the mean anomaly [M] as its orbit line
    shows it: under the line's scale, in the frame of the body's parent,
    which is the line's parent too.  The line is the closed polygon through
    129 such points.  [None] without a line. *)
Definition linePoint {T} `{JSNumber T} (b : BodyObj T) (M : T) : option (Vector3.t T) :=
  option_map (fun line => scaled (getOrbitPosition (elements (data b)) M) (lineScale line))
    (orbitLine b).

(** ** The simulation clock, on binary64 *)

(** [ToIntegerOrInfinity] on a finite Number: the fraction is cut off, and a
    zero result is [+0]. *)
Definition truncate (x : float) : float :=
  match Prim2SF x with
  | S754_finite s m e =>
      if (0 <=? e)%Z then x
      else
        let q := Z.shiftr (Zpos m) (- e) in
        float_of_Z (if s then (- q)%Z else q)
  | S754_zero _ => 0%float
  | _ => x
  end.

(** ECMAScript's [TimeClip]: the time value of [new Date(time)] is NaN (an
    Invalid Date) when [time] is not finite or beyond [8.64e15] in
    magnitude. *)
Definition TimeClip (time : float) : float :=
  if PrimFloat.is_finite time then
    if PrimFloat.ltb (float_of_Z 8640000000000000) (PrimFloat.abs time) then nan
    else truncate time
  else nan.

(** [new Date(value)] in a host whose local zone is [zone]: [zone t] is what
    [getTimezoneOffset()] answers at the time value [t]. *)
Definition newDate (zone : float -> float) (value : float) : Date float :=
  let t := TimeClip value in
  mkDate t (zone t).

(** [animate()], on [STATE.simulationDate] and [STATE.activeBodies]: the
    clock advances by [delta = STATE.clock.getDelta()] seconds times
    [STATE.speedMultiplier], and [updatePhysics()] runs at the new date. *)
Definition animate (impl : MathImpl) (SETTINGS : Settings float) (zone : float -> float)
  (delta speedMultiplier : float) (STATE : Date float * list (BodyObj float))
  : Date float * list (BodyObj float) :=
  let timeStep := (delta * speedMultiplier * 1000)%float in
  let simulationDate := newDate zone (getTime (fst STATE) + timeStep)%float in
  (simulationDate, @updatePhysics float (JSFloat impl) SETTINGS simulationDate (snd STATE)).

(** A run of frames, each with its [delta] and the [speedMultiplier] in
    force. *)
Definition frames (impl : MathImpl) (SETTINGS : Settings float) (zone : float -> float)
  (run : list (float * float)) (STATE : Date float * list (BodyObj float))
  : Date float * list (BodyObj float) :=
  fold_left (fun st f => animate impl SETTINGS zone (fst f) (snd f) st) run STATE.

Unset Implicit Arguments.

(** * Properties *)

(** ** The Kepler loop (C4) *)

Section KeplerLoop.
Context {T : Type} `{JSNumber T}.
Variables e M : T.

Lemma kepler_cond_iter (st : KeplerState) :
  (ks_iter st < 100)%nat ->
  kepler_cond st = (Math_abs (ks_delta st) >? dec 1 6)%js.
Proof.
  intros Hlt. unfold kepler_cond.
  apply Nat.ltb_lt in Hlt. rewrite Hlt. apply andb_true_r.
Qed.

Lemma kepler_cond_cap (st : KeplerState) :
  ks_iter st = 100%nat -> kepler_cond st = false.
Proof.
  intros Heq. unfold kepler_cond. rewrite Heq. apply andb_false_r.
Qed.

(** The fuelled loop and the countdown agree once the fuel covers the
    iterations left. *)
Lemma while_fuel_kepler_steps (left extra : nat) :
  forall st, (ks_iter st + left = 100)%nat ->
    while_fuel kepler_cond (kepler_body e M) (left + extra) st
    = Some (kepler_steps e M left st).
Proof.
  induction left as [|left IH]; intros st Hsum.
  - rewrite Nat.add_0_r in Hsum. simpl.
    destruct extra; simpl; rewrite (kepler_cond_cap st Hsum); reflexivity.
  - simpl. rewrite kepler_cond_iter by lia.
    destruct (Math_abs (ks_delta st) >? dec 1 6)%js; [|reflexivity].
    apply IH. simpl. lia.
Qed.

(** What the countdown computes: the body iterated [k] times, where [k] is
    the first count at which the test fails. *)
Lemma kepler_steps_trace (left : nat) :
  forall st, exists k,
    (k <= left)%nat /\
    kepler_steps e M left st = Nat.iter k (kepler_body e M) st /\
    (forall j, (j < k)%nat ->
       (Math_abs (ks_delta (Nat.iter j (kepler_body e M) st)) >? dec 1 6)%js = true) /\
    (k = left \/
     (Math_abs (ks_delta (Nat.iter k (kepler_body e M) st)) >? dec 1 6)%js = false).
Proof.
  induction left as [|left IH]; intros st.
  - exists 0%nat. simpl. repeat split; auto; intros j Hj; lia.
  - simpl. destruct (Math_abs (ks_delta st) >? dec 1 6)%js eqn:Hgt.
    + destruct (IH (kepler_body e M st)) as (k & Hle & Heq & Hbefore & Hlast).
      exists (S k). rewrite !Nat.iter_succ_r. repeat split.
      * lia.
      * exact Heq.
      * intros [|j] Hj; [exact Hgt|]. rewrite Nat.iter_succ_r. apply Hbefore. lia.
      * destruct Hlast as [->|Hlast]; [left; reflexivity|right; exact Hlast].
    + exists 0%nat. simpl. repeat split; auto; try lia; intros j Hj; lia.
Qed.

Lemma kepler_iter_count (k : nat) (st : KeplerState) :
  ks_iter (Nat.iter k (kepler_body e M) st) = (k + ks_iter st)%nat.
Proof.
  induction k as [|k IH]; simpl; [reflexivity|]. rewrite IH. reflexivity.
Qed.

(** C4. For every eccentricity and mean anomaly the loop of
    [getOrbitPosition] ends, on any fuel of at least 100, in a state [st]
    reached after [k <= 100] iterations; the test held before each of them
    (the correction magnitude was above [1e-6]), and at the end either 100
    iterations are done or the correction magnitude is no longer above
    [1e-6]; nothing is raised, and the eccentric anomaly handed on is the
    one computed last. *)
Theorem kepler_loop_terminates :
  exists (st : KeplerState) (k : nat),
    (forall extra, kepler_loop e M (100 + extra) = Some st) /\
    solveKepler e M = ks_E st /\
    st = Nat.iter k (kepler_body e M) (kepler_init M) /\
    ks_iter st = k /\
    (k <= 100)%nat /\
    (forall j, (j < k)%nat ->
       kepler_cond (Nat.iter j (kepler_body e M) (kepler_init M)) = true) /\
    kepler_cond st = false /\
    (k = 100%nat \/ (Math_abs (ks_delta st) >? dec 1 6)%js = false).
Proof.
  destruct (kepler_steps_trace 100 (kepler_init M)) as (k & Hle & Heq & Hbefore & Hlast).
  exists (kepler_steps e M 100 (kepler_init M)), k.
  assert (Hiter : ks_iter (kepler_steps e M 100 (kepler_init M)) = k).
  { rewrite Heq, kepler_iter_count. simpl. lia. }
  repeat split.
  - intros extra. unfold kepler_loop. apply while_fuel_kepler_steps. reflexivity.
  - exact Heq.
  - exact Hiter.
  - exact Hle.
  - intros j Hj. rewrite kepler_cond_iter.
    + apply Hbefore, Hj.
    + rewrite kepler_iter_count. simpl. lia.
  - destruct Hlast as [->|Hlast].
    + apply kepler_cond_cap. exact Hiter.
    + unfold kepler_cond. rewrite Heq, Hlast. reflexivity.
  - destruct Hlast as [->|Hlast]; [left; reflexivity|right]. rewrite Heq. exact Hlast.
Qed.
End KeplerLoop.

(** ** What one call of [updateBodyPhysics] writes *)

Section UpdateFields.
Context {T : Type} `{JSNumber T}.
Variable S : Settings T.

Lemma update_data parent (b : BodyObj T) jd h :
  data (updateBodyPhysics S parent b jd h) = data b.
Proof. destruct b; reflexivity. Qed.

Lemma update_satellites parent (b : BodyObj T) jd h :
  satellites (updateBodyPhysics S parent b jd h)
  = map (fun sat => updateBodyPhysics S (Some (mesh (updateBodyPhysics S parent b jd h))) sat jd h)
      (satellites b).
Proof. destruct b; reflexivity. Qed.

Lemma update_position parent (b : BodyObj T) jd h :
  position (mesh (updateBodyPhysics S parent b jd h))
  = if isStar (data b) then position (mesh b)
    else spec_place S parent (data b)
           (getOrbitPosition (elements (data b)) (getMeanAnomaly (elements (data b)) jd)).
Proof. destruct b as [m d l s]; simpl. destruct (isStar d), parent; reflexivity. Qed.

Lemma update_scale parent (b : BodyObj T) jd h :
  scale (mesh (updateBodyPhysics S parent b jd h))
  = let globalScale := (radius (data b) * planetVisualScale S)%js in
    match parent with
    | Some p =>
        let relativeScale := (globalScale / Vector3.x (scale p))%js in
        Vector3.mk relativeScale relativeScale relativeScale
    | None => Vector3.mk globalScale globalScale globalScale
    end.
Proof. destruct b as [m d l s]; simpl. destruct parent; reflexivity. Qed.

Lemma update_orbitLine parent (b : BodyObj T) jd h :
  option_map (@lineScale T) (orbitLine (updateBodyPhysics S parent b jd h))
  = match orbitLine b with
    | Some _ =>
        match parent with
        | Some p =>
            let r := (universeScale S
                      * or_default (distanceFactor (data b)) SATELLITE_DIST_FACTOR
                      / Vector3.x (scale p))%js in
            Some (Vector3.mk r r r)
        | None => Some (Vector3.mk (universeScale S) (universeScale S) (universeScale S))
        end
    | None => None
    end.
Proof. destruct b as [m d [l|] s]; simpl; destruct parent; reflexivity. Qed.

(** C7. For every body and Julian Date the mean anomaly is
    [(L + n (jd - 2451545.0)) - w] with [n = 0.9856076686 / a^1.5] (for
    every [a], so in particular for [a > 0]), and the tick places every
    body that is not the star from this one anomaly, whether its parent is
    the scene (a planet) or a mesh (a moon). *)
Theorem meanAnomaly_formula parent (b : BodyObj T) jd h :
  let el := elements (data b) in
  let n := (dec 9856076686 10 / Math_pow (Elements.a el) (dec 15 1))%js in
  getMeanAnomaly el jd = (Elements.L el + n * (jd - dec 24515450 1) - Elements.w el)%js /\
  getMeanAnomaly el jd = spec_meanAnomaly el jd /\
  position (mesh (updateBodyPhysics S parent b jd h))
  = if isStar (data b) then position (mesh b)
    else spec_place S parent (data b) (getOrbitPosition el (spec_meanAnomaly el jd)).
Proof.
  repeat split. apply update_position.
Qed.

(** C9. For a body that orbits (not the star): under a mesh parent the
    position is the orbit-frame position times [universeScale], times the
    body's [distanceFactor] or the default constant, divided componentwise
    by the parent's scale; under the scene it is the orbit-frame position
    times [universeScale] only.  The parent scale a satellite sees is the
    one this very tick has just written. *)
Theorem satellite_position parent (b : BodyObj T) jd h :
  isStar (data b) = false ->
  let orbit := getOrbitPosition (elements (data b)) (getMeanAnomaly (elements (data b)) jd) in
  let us := universeScale S in
  let factor :=
    match distanceFactor (data b) with
    | Some f => if truthy f then f else SATELLITE_DIST_FACTOR
    | None => SATELLITE_DIST_FACTOR
    end in
  position (mesh (updateBodyPhysics S parent b jd h))
  = match parent with
    | Some p =>
        Vector3.mk
          (Vector3.x orbit * us * factor / Vector3.x (scale p))%js
          (Vector3.y orbit * us * factor / Vector3.y (scale p))%js
          (Vector3.z orbit * us * factor / Vector3.z (scale p))%js
    | None =>
        Vector3.mk (Vector3.x orbit * us)%js (Vector3.y orbit * us)%js
          (Vector3.z orbit * us)%js
    end
  /\ satellites (updateBodyPhysics S parent b jd h)
     = map (fun sat =>
              updateBodyPhysics S (Some (mesh (updateBodyPhysics S parent b jd h))) sat jd h)
         (satellites b).
Proof.
  intros Hstar. simpl. split; [|apply update_satellites].
  rewrite update_position, Hstar. destruct parent; reflexivity.
Qed.

(** [data] and a star's position survive any number of ticks. *)
Lemma ticks_star parent (times : list (T * T)) :
  forall b : BodyObj T, isStar (data b) = true ->
    position (mesh (ticks S parent b times)) = position (mesh b).
Proof.
  induction times as [|t times IH]; intros b Hstar; [reflexivity|].
  unfold ticks in *. simpl. rewrite IH.
  - rewrite update_position, Hstar. reflexivity.
  - rewrite update_data. exact Hstar.
Qed.

Lemma create_data (d : BodyData T) : data (createCelestialBody d) = d.
Proof. destruct d; reflexivity. Qed.

Lemma create_position (d : BodyData T) :
  position (mesh (createCelestialBody d)) = Vector3.origin.
Proof. destruct d; reflexivity. Qed.

(** C2, as the code has it. A body flagged [isStar] is where
    [createCelestialBody] put it, at the origin of its parent frame, after
    any sequence of ticks at any timestamps. *)
Theorem star_stays_at_origin parent (d : BodyData T) (times : list (T * T)) :
  isStar d = true ->
  position (mesh (ticks S parent (createCelestialBody d) times)) = Vector3.origin.
Proof.
  intros Hstar. rewrite ticks_star.
  - apply create_position.
  - rewrite create_data. exact Hstar.
Qed.
End UpdateFields.

(** ** Binary64: comparisons, NaN and the infinities *)

Lemma SFltb_asym (a b : spec_float) : SFltb a b = true -> SFltb b a = false.
Proof.
  unfold SFltb.
  destruct a as [sa|sa| |sa ma ea], b as [sb|sb| |sb mb eb]; simpl;
    try discriminate; try reflexivity;
    try (destruct sa; discriminate || reflexivity);
    try (destruct sb; discriminate || reflexivity);
    try (destruct sa, sb; discriminate || reflexivity).
  assert (Hm : Pos.compare_cont Eq mb ma = CompOpp (Pos.compare_cont Eq ma mb)).
  { rewrite Pos.compare_cont_antisym. reflexivity. }
  destruct sa, sb; try discriminate; try reflexivity;
    rewrite (Z.compare_antisym ea eb), Hm;
    destruct (ea ?= eb)%Z; simpl; try discriminate; try reflexivity;
    destruct (Pos.compare_cont Eq ma mb); simpl; discriminate || reflexivity.
Qed.

Lemma ltb_asym (x y : float) : PrimFloat.ltb x y = true -> PrimFloat.ltb y x = false.
Proof. rewrite !ltb_spec. apply SFltb_asym. Qed.

(** In binary64, whatever the engine, a correction below [1e-6] in
    magnitude fails the loop test. *)
Lemma kepler_cond_below (impl : MathImpl) (st : @KeplerState float) :
  PrimFloat.ltb (PrimFloat.abs (ks_delta st)) (float_dec 1 6) = true ->
  @kepler_cond float (JSFloat impl) st = false.
Proof.
  intros Hlt. unfold kepler_cond. cbn [gtb Math_abs dec JSFloat].
  rewrite (ltb_asym _ _ Hlt). reflexivity.
Qed.

Lemma Prim2SF_nan (x : float) : Prim2SF x = S754_nan -> x = nan.
Proof. intros Hx. apply Prim2SF_inj. rewrite Hx. reflexivity. Qed.

Lemma nonfinite_nan : nonfinite nan.
Proof. left. reflexivity. Qed.

Lemma nonfinite_is_finite (x : float) : nonfinite x -> is_finite x = false.
Proof.
  intros [Hx|[s Hx]]; unfold is_finite, is_nan, is_infinity.
  - rewrite (eqb_spec x x), Hx. reflexivity.
  - rewrite (eqb_spec (abs x)), abs_spec, Hx.
    change (Prim2SF infinity) with (S754_infinity false).
    destruct s; simpl; rewrite orb_true_r; reflexivity.
Qed.

Lemma mul_nan_r (x : float) : (x * nan = nan)%float.
Proof. apply Prim2SF_nan. rewrite mul_spec. destruct (Prim2SF x); reflexivity. Qed.

Lemma mul_nan_l (x : float) : (nan * x = nan)%float.
Proof. apply Prim2SF_nan. rewrite mul_spec. reflexivity. Qed.

Lemma add_nan_r (x : float) : (x + nan = nan)%float.
Proof. apply Prim2SF_nan. rewrite add_spec. destruct (Prim2SF x); reflexivity. Qed.

Lemma add_nan_l (x : float) : (nan + x = nan)%float.
Proof. apply Prim2SF_nan. rewrite add_spec. reflexivity. Qed.

Lemma sub_nan_r (x : float) : (x - nan = nan)%float.
Proof. apply Prim2SF_nan. rewrite sub_spec. destruct (Prim2SF x); reflexivity. Qed.

Lemma sub_nan_l (x : float) : (nan - x = nan)%float.
Proof. apply Prim2SF_nan. rewrite sub_spec. reflexivity. Qed.

Lemma div_nan_l (x : float) : (nan / x = nan)%float.
Proof. apply Prim2SF_nan. rewrite div_spec. reflexivity. Qed.

Lemma nonfinite_infinity_mul (d : float) : nonfinite (infinity * d).
Proof.
  unfold nonfinite. rewrite mul_spec.
  change (Prim2SF infinity) with (S754_infinity false).
  destruct (Prim2SF d) as [s|s| |s m e]; simpl; eauto.
Qed.

Lemma nonfinite_add_r (x y : float) : nonfinite x -> nonfinite (y + x).
Proof.
  unfold nonfinite. rewrite add_spec. intros [->|[s ->]].
  - left. destruct (Prim2SF y); reflexivity.
  - destruct (Prim2SF y) as [t|t| |t m e]; simpl; eauto.
    destruct t, s; simpl; eauto.
Qed.

Lemma nonfinite_sub_l (x y : float) : nonfinite x -> nonfinite (x - y).
Proof.
  unfold nonfinite. rewrite sub_spec. intros [->|[s ->]].
  - left. reflexivity.
  - destruct (Prim2SF y) as [t|t| |t m e]; simpl; eauto.
    destruct s, t; simpl; eauto.
Qed.

Lemma nonfinite_mul_finite (x c : float) (s : bool) (m : positive) (e : Z) :
  Prim2SF c = S754_finite s m e -> nonfinite x -> nonfinite (x * c).
Proof.
  unfold nonfinite. rewrite mul_spec. intros -> [->|[t ->]]; simpl; eauto.
Qed.

(** Reads the operations of [JSNumber] at [JSFloat impl]. *)
Ltac js_float :=
  cbn [dec int add sub mul div neg gtb truthy Math_PI Math_abs Math_sqrt Math_sin Math_cos
       Math_pow JSFloat] in *.

Lemma RefMath_conforms : conforms RefMath.impl.
Proof.
  repeat split.
  - intros x Hx. cbn [impl_sin RefMath.impl]. unfold RefMath.sin. rewrite Hx. reflexivity.
  - intros x Hx. cbn [impl_cos RefMath.impl]. unfold RefMath.cos. rewrite Hx. reflexivity.
Qed.

(** ** Binary64: a body with [a = 0] that is not the star *)

Section UnflaggedBody.
Variable impl : MathImpl.
Hypothesis Hconf : conforms impl.
Let num : JSNumber float := JSFloat impl.
#[local] Existing Instance num.

Lemma sin_nonfinite (x : float) : nonfinite x -> Math_sin x = nan.
Proof. intros Hx. apply (proj1 Hconf), nonfinite_is_finite, Hx. Qed.

Lemma cos_nonfinite (x : float) : nonfinite x -> Math_cos x = nan.
Proof. intros Hx. apply (proj1 (proj2 Hconf)), nonfinite_is_finite, Hx. Qed.

Lemma kepler_body_nonfinite (e M : float) (k : nat) (d : float) :
  nonfinite M -> kepler_body e M (mkKepler M d k) = mkKepler nan nan (S k).
Proof.
  intros HM. unfold kepler_body. cbn [ks_E ks_iter]. rewrite (sin_nonfinite M HM).
  unfold num. js_float.
  rewrite mul_nan_r, sub_nan_r, sub_nan_l, div_nan_l, sub_nan_r. reflexivity.
Qed.

Lemma solveKepler_nonfinite (e M : float) : nonfinite M -> solveKepler e M = nan.
Proof.
  intros HM. unfold solveKepler, kepler_init.
  change (kepler_steps e M 100 (mkKepler M (dec 10 1) 0))
    with (kepler_steps e M 99 (kepler_body e M (mkKepler M (dec 10 1) 0))).
  rewrite (kepler_body_nonfinite e M 0 (dec 10 1) HM). reflexivity.
Qed.

Lemma orbitFrame_nan (el : Elements.t float) :
  orbitFrame el nan = Vector3.mk nan nan nan.
Proof.
  unfold orbitFrame. rewrite (sin_nonfinite nan nonfinite_nan), (cos_nonfinite nan nonfinite_nan).
  unfold num. js_float.
  rewrite !sub_nan_l, !mul_nan_r, !add_nan_r. reflexivity.
Qed.

Lemma meanAnomaly_nonfinite (el : Elements.t float) (jd : float) :
  Elements.a el = 0%float -> nonfinite (getMeanAnomaly el jd).
Proof.
  intros Ha. unfold getMeanAnomaly. rewrite Ha. unfold num. js_float.
  rewrite (proj2 (proj2 Hconf)).
  change (float_dec 9856076686 10 / 0)%float with infinity.
  apply nonfinite_sub_l, nonfinite_add_r, nonfinite_infinity_mul.
Qed.

Lemma orbitPosition_nan (el : Elements.t float) (jd : float) :
  Elements.a el = 0%float ->
  getOrbitPosition el (getMeanAnomaly el jd) = Vector3.mk nan nan nan.
Proof.
  intros Ha. unfold getOrbitPosition. rewrite solveKepler_nonfinite; [apply orbitFrame_nan|].
  unfold num. js_float.
  apply (nonfinite_mul_finite _ (@DEG_TO_RAD float (JSFloat impl)) false 5030569068109113 (-58));
    [reflexivity|].
  apply meanAnomaly_nonfinite, Ha.
Qed.

(** X19. A body with [a = +0] that is not flagged [isStar] is placed at
    [(NaN, NaN, NaN)], at every timestamp, under every parent and with every
    conforming engine: its mean motion is [0.9856076686 / 0 = Infinity]. *)
Lemma unflagged_zero_axis_is_NaN (S : Settings float) (parent : option (Mesh float))
  (b : BodyObj float) (jd h : float) :
  isStar (data b) = false ->
  Elements.a (elements (data b)) = 0%float ->
  position (mesh (updateBodyPhysics S parent b jd h)) = Vector3.mk nan nan nan.
Proof.
  intros Hstar Ha. rewrite update_position, Hstar. unfold spec_place.
  rewrite (orbitPosition_nan _ jd Ha).
  destruct parent as [p|]; unfold Vector3.multiplyScalar, Vector3.divide;
    cbn [Vector3.x Vector3.y Vector3.z]; unfold num; js_float;
    rewrite ?mul_nan_l, ?div_nan_l; reflexivity.
Qed.
End UnflaggedBody.

(** ** Binary64: the fallback of [distanceFactor] (C10) *)

Section Binary64.
Variable impl : MathImpl.
Let num : JSNumber float := JSFloat impl.
#[local] Existing Instance num.

Lemma default_factor_is_50 : @SATELLITE_DIST_FACTOR float num = 50%float.
Proof. reflexivity. Qed.

(** [0 || d] and [-0 || d] are [d]. *)
Lemma or_default_zero (v d : float) :
  PrimFloat.eqb v 0 = true -> or_default (Some v) d = d.
Proof.
  intros Hz. unfold or_default. change (truthy v) with (float_truthy v).
  unfold float_truthy. rewrite Hz. reflexivity.
Qed.

(** [a || 50] is never a zero. *)
Lemma or_default_nonzero (a : option float) :
  PrimFloat.eqb (or_default a SATELLITE_DIST_FACTOR) 0 = false.
Proof.
  destruct a as [v|]; [|reflexivity].
  unfold or_default. change (truthy v) with (float_truthy v). unfold float_truthy.
  destruct (PrimFloat.eqb v 0) eqn:Hz; simpl; [reflexivity|].
  destruct (PrimFloat.is_nan v); simpl; [reflexivity|exact Hz].
Qed.

(** C10. A satellite whose [distanceFactor] is absent, or is a zero, is
    placed with the multiplier [50.0] and its orbit line is scaled with
    [50.0]; whatever is configured, the multiplier is never a zero. *)
Theorem distanceFactor_fallback (S : Settings float) (p : Mesh float) (b : BodyObj float)
  (line : OrbitLine float) (jd h : float) :
  isStar (data b) = false ->
  orbitLine b = Some line ->
  (distanceFactor (data b) = None \/
   exists v, distanceFactor (data b) = Some v /\ PrimFloat.eqb v 0 = true) ->
  let orbit := getOrbitPosition (elements (data b)) (getMeanAnomaly (elements (data b)) jd) in
  let b' := updateBodyPhysics S (Some p) b jd h in
  position (mesh b')
  = Vector3.divide
      (Vector3.multiplyScalar (Vector3.multiplyScalar orbit (universeScale S)) 50%float)
      (scale p)
  /\ option_map (@lineScale float) (orbitLine b')
     = (let r := (universeScale S * 50 / Vector3.x (scale p))%float in
        Some (Vector3.mk r r r))
  /\ forall configured : option float,
       PrimFloat.eqb (or_default configured SATELLITE_DIST_FACTOR) 0 = false.
Proof.
  intros Hstar Hline Hfactor orbit b'. subst orbit b'.
  assert (Hdf : or_default (distanceFactor (data b)) SATELLITE_DIST_FACTOR = 50%float).
  { destruct Hfactor as [->|(v & -> & Hz)]; [reflexivity|].
    rewrite (or_default_zero v _ Hz). reflexivity. }
  split; [|split].
  - rewrite update_position, Hstar. unfold spec_place. rewrite Hdf. reflexivity.
  - rewrite update_orbitLine, Hline. cbv zeta. rewrite Hdf. reflexivity.
  - apply or_default_nonzero.
Qed.
End Binary64.

(** ** Binary64 with the reference engine: evaluations *)

Section Evaluations.
#[local] Existing Instance F64.

(** C10 at a Moon configured with [distanceFactor: 0], under a parent of
    scale [0.0625]. *)
Lemma distanceFactor_fallback_witness :
  let p := mkMesh Vector3.origin 0%float (Vector3.mk 0.0625 0.0625 0.0625)%float in
  let b := createCelestialBody zeroFactorMoon in
  let jd := float_dec 24515450 1 in
  let orbit := getOrbitPosition (elements (data b)) (getMeanAnomaly (elements (data b)) jd) in
  let b' := updateBodyPhysics DEFAULTS (Some p) b jd 0%float in
  position (mesh b')
  = Vector3.divide
      (Vector3.multiplyScalar (Vector3.multiplyScalar orbit (universeScale DEFAULTS)) 50%float)
      (scale p)
  /\ option_map (@lineScale float) (orbitLine b')
     = (let r := (universeScale DEFAULTS * 50 / Vector3.x (scale p))%float in
        Some (Vector3.mk r r r))
  /\ forall configured : option float,
       PrimFloat.eqb (@or_default float F64 configured SATELLITE_DIST_FACTOR) 0 = false.
Proof.
  intros p b jd.
  destruct (orbitLine b) as [line|] eqn:Hline; [|discriminate Hline].
  apply (@distanceFactor_fallback RefMath.impl DEFAULTS p b line jd 0%float).
  - reflexivity.
  - exact Hline.
  - right. exists 0%float. split; reflexivity.
Defined.

(** C1, refuted as stated. With everything else fixed, the world-space
    scale of the Moon (radius [0.0035]) under the Earth (radius [0.013]) is
    [0.0035 * 5] at [planetVisualScale = 5] and [0.0035 * 10] at
    [planetVisualScale = 10]: it is not the same. *)
Lemma worldScale_follows_planetVisualScale :
  worldScales (earthTick 5%float) = [(float_dec 35 4 * 5)%float] /\
  worldScales (earthTick 10%float) = [(float_dec 35 4 * 10)%float] /\
  PrimFloat.eqb (float_dec 35 4 * 5) (float_dec 35 4 * 10) = false.
Proof. vm_compute. repeat split. Qed.

(** C1, as the code has it. Between [planetVisualScale = 5] and [10] the
    Moon's relative scale, the one written on its mesh, is the same (the
    division by the parent's scale cancels the setting), and its world-space
    scale, the parent's scale times the relative one, doubles with the
    setting. *)
Theorem relativeScale_invariant :
  relativeScales (earthTick 5%float) = relativeScales (earthTick 10%float) /\
  relativeScales (earthTick 5%float) = [(float_dec 35 4 * 5 / (float_dec 13 3 * 5))%float] /\
  worldScales (earthTick 10%float)
  = map (fun s => (2 * s)%float) (worldScales (earthTick 5%float)).
Proof. vm_compute. repeat split. Qed.

(** C2, refuted as stated. A body with [a = 0] that is not flagged [isStar]
    (the Sun's numbers, without the flag) is not placed at the origin: at
    J2000 its mean motion is [0.9856076686 / 0 = Infinity], its mean anomaly
    [Infinity * 0 = NaN], and its position [(NaN, NaN, NaN)]. *)
Lemma unflagged_body_is_not_at_origin :
  Elements.a (elements (@unflaggedSun float F64)) = 0%float /\
  position (mesh (updateBodyPhysics DEFAULTS None (createCelestialBody unflaggedSun)
                    (float_dec 24515450 1) 0%float))
  = Vector3.mk nan nan nan /\
  PrimFloat.eqb nan 0 = false.
Proof. vm_compute. repeat split. Qed.

(** C2 at the Sun, over two ticks. *)
Lemma star_stays_at_origin_witness :
  isStar (@Sun float F64) = true /\
  position (mesh (ticks DEFAULTS None (createCelestialBody Sun)
                    [(float_dec 24515450 1, 0%float); (float_dec 24600000 1, 1000%float)]))
  = Vector3.origin.
Proof.
  split; [reflexivity|].
  apply (@star_stays_at_origin float F64 DEFAULTS None Sun). reflexivity.
Defined.

(** C9 at the Moon under a parent of scale [0.0625]. *)
Lemma satellite_position_witness :
  let p := mkMesh Vector3.origin 0%float (Vector3.mk 0.0625 0.0625 0.0625)%float in
  let b := createCelestialBody Moon in
  let jd := float_dec 24515450 1 in
  let orbit := getOrbitPosition (elements (data b)) (getMeanAnomaly (elements (data b)) jd) in
  position (mesh (updateBodyPhysics DEFAULTS (Some p) b jd 0%float))
  = Vector3.mk
      (Vector3.x orbit * 2 * 50 / 0.0625)%float
      (Vector3.y orbit * 2 * 50 / 0.0625)%float
      (Vector3.z orbit * 2 * 50 / 0.0625)%float.
Proof.
  intros p b jd orbit.
  exact (proj1 (@satellite_position float F64 DEFAULTS (Some p) b jd 0%float eq_refl)).
Defined.

(** The Earth-like fixture on binary64 with the reference engine: the mean
    anomaly rounds to [-2.48284], and the position lies in the intervals
    that [earth_fixture] proves in exact reals. *)
Lemma earth_fixture_binary64 :
  let M := getMeanAnomaly (T:=float) earthLike J2000 in
  let pos := getOrbitPosition earthLike M in
  PrimFloat.ltb (PrimFloat.abs (M - - float_dec 248284 5)) (float_dec 1 12) = true /\
  PrimFloat.ltb (- float_dec 1773 4) (Vector3.x pos) = true /\
  PrimFloat.ltb (Vector3.x pos) (- float_dec 1770 4) = true /\
  PrimFloat.ltb (float_dec 84 8) (Vector3.y pos) = true /\
  PrimFloat.ltb (Vector3.y pos) (float_dec 85 8) = true /\
  PrimFloat.ltb (float_dec 9671 4) (Vector3.z pos) = true /\
  PrimFloat.ltb (Vector3.z pos) (float_dec 9673 4) = true.
Proof. vm_compute. repeat split. Qed.

(** C5, refuted as stated. The instant 2000-01-01T12:00:00Z, read in a zone
    at UTC and in a zone two hours east of it ([getTimezoneOffset] is
    [-120]): the first result is the standard Julian Date [2451545], the
    second is larger. *)
Lemma julianDate_depends_on_zone :
  getJulianDate (mkDate 946728000000 0)%float = 2451545%float /\
  standardJulianDate 946728000000%float = 2451545%float /\
  PrimFloat.ltb (getJulianDate (mkDate 946728000000 0)%float)
                (getJulianDate (mkDate 946728000000 (-120))%float) = true.
Proof. vm_compute. repeat split. Qed.
End Evaluations.

(** ** Exact reals *)

Lemma real_dec_0_aux (m : Z) : (IZR m / IZR 1 = IZR m)%R.
Proof. field. Qed.

(** Reads the operations of [JSNumber] at [JSReal]. *)
Ltac js_real :=
  cbn [dec int add sub mul div neg gtb truthy Math_PI Math_abs Math_sqrt Math_sin Math_cos
       Math_pow JSReal] in *;
  unfold real_dec in *;
  cbn [Z.pow Z.of_nat Pos.of_succ_nat Pos.succ Z.pow_pos Pos.iter Z.mul Pos.mul Pos.add
       Pos.add_carry] in *.

(** In exact reals a satellite's world-space scale, the parent's scale times
    the relative scale that [updateBodyPhysics] writes, is its radius times
    [planetVisualScale] whatever the parent's scale: the division cancels the
    parent, not the setting. *)
Lemma worldScale_is_radius_times_setting (S : Settings R) (p : Mesh R) (b : BodyObj R)
  (jd h : R) :
  Vector3.x (scale p) <> 0%R ->
  (Vector3.x (scale p) * Vector3.x (scale (mesh (updateBodyPhysics S (Some p) b jd h)))
   = radius (data b) * planetVisualScale S)%R.
Proof.
  intros Hp. rewrite update_scale. cbn [Vector3.x]. js_real. field. exact Hp.
Qed.

(** C5, as the code has it. The result is the standard Julian Date of the
    instant minus [getTimezoneOffset / 1440] days: it is the standard Julian
    Date when the offset is [0], and two readings of one instant differ by
    the difference of their offsets. *)
Theorem julianDate_local_offset (ms offset offset' : R) :
  getJulianDate (mkDate ms offset) = (standardJulianDate ms - offset / 1440)%R /\
  getJulianDate (mkDate ms 0%R) = standardJulianDate ms /\
  (getJulianDate (mkDate ms offset) - getJulianDate (mkDate ms offset')
   = (offset' - offset) / 1440)%R.
Proof.
  unfold getJulianDate, standardJulianDate. js_real. simpl. repeat split; lra.
Qed.

(** ** The orbit frame transform (C8) *)

(** C8. For every eccentric anomaly and every set of elements, the vector
    the code returns is the perifocal point [(X, Y, 0)], with
    [X = a (cos E - e)] and [Y = a sqrt(1 - e^2) sin E], rotated about the
    third axis by [w' = w - o], then about the first by [i], then about the
    third by [o], with the second and third coordinates of the result
    exchanged: the vertical (second) component returned is the ecliptic [z],
    the horizontal ones are the ecliptic [x] and [y]. *)
Theorem orbitFrame_is_rotated_perifocal (el : Elements.t R) (E : R) :
  let a := Elements.a el in
  let e := Elements.e el in
  let X := (a * (cos E - e))%R in
  let Y := (a * sqrt (1 - e * e) * sin E)%R in
  let w' := (Elements.w el - Elements.o el)%R in
  let ecl := rotZ (radians (Elements.o el))
               (rotX (radians (Elements.i el)) (rotZ (radians w') (Vector3.mk X Y 0%R))) in
  spec_perifocal el E = Vector3.mk X Y 0%R /\
  spec_ecliptic el E = ecl /\
  orbitFrame el E = Vector3.mk (Vector3.x ecl) (Vector3.z ecl) (Vector3.y ecl) /\
  orbitFrame el E = spec_remap (spec_ecliptic el E).
Proof.
  assert (Hper : spec_perifocal el E
                 = Vector3.mk (Elements.a el * (cos E - Elements.e el))%R
                     (Elements.a el * sqrt (1 - Elements.e el * Elements.e el) * sin E)%R 0%R).
  { unfold spec_perifocal. js_real. rewrite !real_dec_0_aux. reflexivity. }
  cbv zeta. split; [exact Hper|]. split; [unfold spec_ecliptic; rewrite Hper; reflexivity|].
  assert (Hmain : orbitFrame el E = spec_remap (spec_ecliptic el E)).
  { unfold spec_ecliptic. rewrite Hper.
    unfold orbitFrame, spec_remap, rotZ, rotX, radians, DEG_TO_RAD. js_real.
    cbn [Vector3.x Vector3.y Vector3.z]. rewrite !real_dec_0_aux.
    f_equal; ring. }
  split; [|exact Hmain].
  rewrite Hmain. unfold spec_ecliptic. rewrite Hper. reflexivity.
Qed.

(** ** Exact reals: the Earth-like fixture (C6) *)

Local Open Scope R_scope.

(** Numeric tools: [PI] from Machin's series, [sin] and [cos] from their
    alternating Taylor sums. *)
Lemma PI_bounds : 3.14159 < PI < 3.1416.
Proof.
  pose proof (PI_2_3_7_ineq 2) as [Hlo Hhi].
  unfold sum_f_R0, tg_alt, PI_2_3_7_tg, Ratan_seq in Hlo, Hhi.
  simpl in Hlo, Hhi.
  split; lra.
Qed.

Lemma INR_fact (n : nat) : INR (fact n) = IZR (Z.of_nat (fact n)).
Proof. apply INR_IZR_INZ. Qed.

Lemma sin_taylor (a : R) :
  0 <= a -> a <= PI ->
  a - a^3/6 + a^5/120 - a^7/5040 <= sin a <= a - a^3/6 + a^5/120 - a^7/5040 + a^9/362880.
Proof.
  intros H0 H1. pose proof (SIN a H0 H1) as H.
  unfold sin_lb, sin_ub, sin_approx, sum_f_R0, sin_term in H.
  rewrite !INR_fact in H.
  change (Z.of_nat (fact (2 * 0 + 1))) with 1%Z in H.
  change (Z.of_nat (fact (2 * 1 + 1))) with 6%Z in H.
  change (Z.of_nat (fact (2 * 2 + 1))) with 120%Z in H.
  change (Z.of_nat (fact (2 * 3 + 1))) with 5040%Z in H.
  change (Z.of_nat (fact (2 * 4 + 1))) with 362880%Z in H.
  simpl in H. lra.
Qed.

Lemma cos_taylor (a : R) :
  - PI / 2 <= a -> a <= PI / 2 ->
  1 - a^2/2 + a^4/24 - a^6/720 <= cos a <= 1 - a^2/2 + a^4/24 - a^6/720 + a^8/40320.
Proof.
  intros H0 H1. pose proof (COS a H0 H1) as H.
  unfold cos_lb, cos_ub, cos_approx, sum_f_R0, cos_term in H.
  rewrite !INR_fact in H.
  change (Z.of_nat (fact (2 * 0))) with 1%Z in H.
  change (Z.of_nat (fact (2 * 1))) with 2%Z in H.
  change (Z.of_nat (fact (2 * 2))) with 24%Z in H.
  change (Z.of_nat (fact (2 * 3))) with 720%Z in H.
  change (Z.of_nat (fact (2 * 4))) with 40320%Z in H.
  simpl in H. lra.
Qed.

(** The loop in exact reals: each pass maps [E] to [newton e M E], the first
    pass always runs, and a set that the pass maps into itself holds the
    result. *)
Lemma kepler_body_E (e M : R) (st : KeplerState) :
  ks_E (kepler_body e M st) = newton e M (ks_E st).
Proof.
  unfold kepler_body, newton. cbn [ks_E]. js_real. rewrite !real_dec_0_aux. reflexivity.
Qed.

Lemma kepler_steps_invariant (e M : R) (J : R -> Prop) :
  (forall E, J E -> J (newton e M E)) ->
  forall left st, J (ks_E st) -> J (ks_E (kepler_steps e M left st)).
Proof.
  intros Hstep. induction left as [|left IH]; intros st HJ; [exact HJ|].
  simpl. match goal with |- context [if ?c then _ else _] => destruct c end; [|exact HJ].
  apply IH. rewrite kepler_body_E. apply Hstep, HJ.
Qed.

Lemma solveKepler_first (e M : R) :
  solveKepler e M = ks_E (kepler_steps e M 99 (kepler_body e M (kepler_init M))).
Proof.
  unfold solveKepler.
  change (kepler_steps e M 100 (kepler_init M))
    with (if (Math_abs (ks_delta (kepler_init M)) >? dec 1 6)%js
          then kepler_steps e M 99 (kepler_body e M (kepler_init M))
          else kepler_init M).
  assert (Hgt : (Math_abs (ks_delta (kepler_init M)) >? dec 1 6)%js = true).
  { unfold kepler_init. cbn [ks_delta]. js_real. unfold real_gtb.
    match goal with
    | |- context [Rlt_dec ?a ?b] => destruct (Rlt_dec a b) as [|Hn]
    end; [reflexivity|].
    exfalso. apply Hn. rewrite Rabs_pos_eq; lra. }
  rewrite Hgt. reflexivity.
Qed.

Lemma solveKepler_in (e M : R) (I J : R -> Prop) :
  I M ->
  (forall E, I E -> J (newton e M E)) ->
  (forall E, J E -> I E) ->
  J (solveKepler e M).
Proof.
  intros HM Hstep Hsub. rewrite solveKepler_first.
  apply kepler_steps_invariant.
  - intros E HE. apply Hstep, Hsub, HE.
  - rewrite kepler_body_E. apply Hstep. exact HM.
Qed.

Lemma div_gt (n d lo : R) : 0 < d -> lo * d < n -> lo < n / d.
Proof.
  intros Hd H. apply Rmult_lt_reg_r with d; [exact Hd|].
  unfold Rdiv. rewrite Rmult_assoc, Rinv_l, Rmult_1_r by lra. exact H.
Qed.

Lemma div_lt (n d hi : R) : 0 < d -> n < hi * d -> n / d < hi.
Proof.
  intros Hd H. apply Rmult_lt_reg_r with d; [exact Hd|].
  unfold Rdiv. rewrite Rmult_assoc, Rinv_l, Rmult_1_r by lra. exact H.
Qed.

(** Small angles. *)
Lemma sin_small (a : R) : 0 <= a -> a <= 1 -> a - a^3/6 <= sin a <= a.
Proof.
  intros H0 H1. pose proof PI_bounds as HPI.
  split.
  - pose proof (sin_taylor a H0 ltac:(lra)) as [Hlo _].
    assert (0 <= a^5 * (1/120 - a^2/5040)).
    { apply Rmult_le_pos; [apply pow_le; exact H0|]. nra. }
    lra.
  - destruct (Req_dec a 0) as [->|Hne]; [rewrite sin_0; lra|].
    left. apply sin_lt_x. lra.
Qed.

Lemma cos_small (a : R) : 0 <= a -> a <= 1 -> 1 - a^2/2 <= cos a <= 1.
Proof.
  intros H0 H1. pose proof PI_bounds as HPI.
  split; [|apply COS_bound].
  pose proof (cos_taylor a ltac:(lra) ltac:(lra)) as [Hlo _].
  assert (0 <= a^4 * (1/24 - a^2/720)).
  { apply Rmult_le_pos; [apply pow_le; exact H0|]. nra. }
  lra.
Qed.

(** The fixture: from any [E] in [[-0.05, 0]], which holds [E = M], a pass
    lands within [0.00001] of [-0.04407]. *)
Lemma earthM_bounds : -0.043334 < earthM < -0.043333.
Proof. unfold earthM. pose proof PI_bounds. lra. Qed.

Lemma earth_newton (E : R) :
  -0.05 <= E <= 0 -> -0.04408 < newton (167 / 10000) earthM E < -0.04406.
Proof.
  intros [Hlo Hhi]. pose proof earthM_bounds as HM.
  pose proof (sin_small (- E) ltac:(lra) ltac:(lra)) as Hs.
  pose proof (cos_small (- E) ltac:(lra) ltac:(lra)) as Hc.
  rewrite sin_neg in Hs. rewrite cos_neg in Hc.
  set (s := sin E) in *. set (c := cos E) in *.
  assert (Ha3 : 0 <= (- E)^3 <= 0.000125).
  { split; [apply pow_le; lra|]. 
    replace 0.000125 with (0.05^3) by lra. apply pow_incr. lra. }
  assert (Ha2 : 0 <= (- E)^2 <= 0.0025).
  { split; [apply pow_le; lra|].
    replace 0.0025 with (0.05^2) by lra. apply pow_incr. lra. }
  assert (HEc : - 0.0000625 <= E * (1 - c) <= 0) by nra.
  assert (HN : newton (167 / 10000) earthM E
               = (earthM + 167 / 10000 * (s - E * c)) / (1 - 167 / 10000 * c)).
  { unfold newton. fold s c. field. lra. }
  rewrite HN. split.
  - apply div_gt; [lra|]. nra.
  - apply div_lt; [lra|]. nra.
Qed.

Lemma cos_interval (a lo hi : R) :
  0 <= lo -> lo <= a -> a <= hi -> hi <= 3/2 ->
  1 - hi^2/2 + hi^4/24 - hi^6/720 <= cos a <= 1 - lo^2/2 + lo^4/24 - lo^6/720 + lo^8/40320.
Proof.
  intros H0 H1 H2 H3. pose proof PI_bounds as HPI.
  pose proof (cos_taylor hi ltac:(lra) ltac:(lra)) as [Hhi _].
  pose proof (cos_taylor lo ltac:(lra) ltac:(lra)) as [_ Hlo].
  pose proof (cos_decr_1 a hi ltac:(lra) ltac:(lra) ltac:(lra) ltac:(lra) H2).
  pose proof (cos_decr_1 lo a ltac:(lra) ltac:(lra) ltac:(lra) ltac:(lra) H1).
  lra.
Qed.

Lemma sin_interval (a lo hi : R) :
  0 <= lo -> lo <= a -> a <= hi -> hi <= 3/2 ->
  lo - lo^3/6 + lo^5/120 - lo^7/5040 <= sin a
  <= hi - hi^3/6 + hi^5/120 - hi^7/5040 + hi^9/362880.
Proof.
  intros H0 H1 H2 H3. pose proof PI_bounds as HPI.
  pose proof (sin_taylor hi ltac:(lra) ltac:(lra)) as [_ Hhi].
  pose proof (sin_taylor lo ltac:(lra) ltac:(lra)) as [Hlo _].
  pose proof (sin_incr_1 a hi ltac:(lra) ltac:(lra) ltac:(lra) ltac:(lra) H2).
  pose proof (sin_incr_1 lo a ltac:(lra) ltac:(lra) ltac:(lra) ltac:(lra) H1).
  lra.
Qed.

Lemma earth_E_bounds : -0.04408 < solveKepler (167 / 10000) earthM < -0.04406.
Proof.
  apply (solveKepler_in (167 / 10000) earthM
           (fun E => -0.05 <= E <= 0) (fun E => -0.04408 < E < -0.04406)).
  - pose proof earthM_bounds. lra.
  - apply earth_newton.
  - intros E HE. lra.
Qed.

Lemma earth_cosE (E : R) : -0.04408 < E < -0.04406 -> 0.99902 < cos E < 0.99904.
Proof.
  intros HE. rewrite <- cos_neg.
  pose proof (cos_interval (- E) 0.04406 0.04408 ltac:(lra) ltac:(lra) ltac:(lra) ltac:(lra)).
  lra.
Qed.

Lemma earth_sinE (E : R) : -0.04408 < E < -0.04406 -> -0.04407 < sin E < -0.04404.
Proof.
  intros HE. rewrite <- (Ropp_involutive E), sin_neg.
  pose proof (sin_interval (- E) 0.04406 0.04408 ltac:(lra) ltac:(lra) ltac:(lra) ltac:(lra)).
  lra.
Qed.

Lemma earth_sqrt : 0.99986 < sqrt (1 - 167 / 10000 * (167 / 10000)) < 0.99987.
Proof.
  split.
  - rewrite <- (sqrt_square 0.99986) by lra. apply sqrt_lt_1; lra.
  - rewrite <- (sqrt_square 0.99987) by lra. apply sqrt_lt_1; lra.
Qed.

Lemma earth_cos_sin_w :
  -0.22412 < cos earthW < -0.22404 /\ 0.97452 < sin earthW < 0.97460.
Proof.
  pose proof PI_bounds as HPI.
  assert (Hh : 0.89838 <= earthW / 2 <= 0.89839) by (unfold earthW; lra).
  replace earthW with (2 * (earthW / 2)) by field.
  rewrite cos_2a_cos, sin_2a.
  pose proof (cos_interval (earthW / 2) 0.89838 0.89839
                ltac:(lra) ltac:(lra) ltac:(lra) ltac:(lra)) as Hc.
  pose proof (sin_interval (earthW / 2) 0.89838 0.89839
                ltac:(lra) ltac:(lra) ltac:(lra) ltac:(lra)) as Hs.
  set (c := cos (earthW / 2)) in *. set (s := sin (earthW / 2)) in *.
  assert (Hc' : 0.62285 < c < 0.62288) by lra.
  assert (Hs' : 0.78231 < s < 0.78233) by lra.
  split; split; nra.
Qed.

Lemma earth_cos_sin_i :
  0.999999 < cos earthI <= 1 /\ 0.00000087266 < sin earthI < 0.00000087267.
Proof.
  pose proof PI_bounds as HPI.
  assert (Hi : 0.000000872663 < earthI < 0.000000872667) by (unfold earthI; lra).
  pose proof (cos_small earthI ltac:(lra) ltac:(lra)) as Hc.
  pose proof (sin_small earthI ltac:(lra) ltac:(lra)) as Hs.
  assert (H2 : 0 <= earthI ^ 2 <= 0.000001).
  { split; [apply pow_le; lra|]. replace 0.000001 with (0.001^2) by lra. apply pow_incr. lra. }
  assert (H3 : 0 <= earthI ^ 3 <= 0.000000000001).
  { split; [apply pow_le; lra|]. replace 0.000000000001 with (0.0001^3) by lra.
    apply pow_incr. lra. }
  split; split; lra.
Qed.

Lemma earthLike_meanAnomaly :
  getMeanAnomaly (T:=R) earthLike J2000 = - (248284 / 100000).
Proof.
  unfold getMeanAnomaly, earthLike, J2000. cbn [Elements.a Elements.L Elements.w]. js_real.
  replace (10 / 10) with 1 by field.
  unfold Rpower. rewrite ln_1, Rmult_0_r, exp_0. field.
Qed.

Lemma earthLike_position :
  let pos := getOrbitPosition (T:=R) earthLike (- (248284 / 100000)) in
  (-0.1773 < Vector3.x pos < -0.1770) /\
  (0.00000084 < Vector3.y pos < 0.00000085) /\
  (0.9671 < Vector3.z pos < 0.9673).
Proof.
  unfold getOrbitPosition, orbitFrame, earthLike, DEG_TO_RAD.
  cbn [Elements.a Elements.e Elements.i Elements.L Elements.w Elements.o
       Vector3.x Vector3.y Vector3.z].
  js_real. rewrite !real_dec_0_aux.
  fold earthM earthW earthI.
  rewrite Rmult_0_l, sin_0, cos_0.
  pose proof earth_E_bounds as HE.
  pose proof (earth_cosE _ HE) as HcE. pose proof (earth_sinE _ HE) as HsE.
  pose proof earth_sqrt as Hq.
  pose proof earth_cos_sin_w as [Hcw Hsw]. pose proof earth_cos_sin_i as [Hci Hsi].
  set (cE := cos (solveKepler (167 / 10000) earthM)) in *.
  set (sE := sin (solveKepler (167 / 10000) earthM)) in *.
  set (q := sqrt (1 - 167 / 10000 * (167 / 10000))) in *.
  set (cw := cos earthW) in *. set (sw := sin earthW) in *.
  set (ci := cos earthI) in *. set (si := sin earthI) in *.
  set (X := 10 / 10 * (cE - 167 / 10000)).
  set (Y := 10 / 10 * q * sE).
  assert (HX : 0.98232 < X < 0.98234) by (unfold X; lra).
  assert (HY : -0.04407 < Y < -0.04403) by (unfold Y; nra).
  assert (HcwX : -0.22017 < cw * X < -0.22007) by nra.
  assert (HswY : -0.04296 < sw * Y < -0.04290) by nra.
  assert (HswX : 0.95729 < sw * X < 0.95743) by nra.
  assert (HcwY : 0.00986 < cw * Y < 0.00988) by nra.
  split; [|split].
  - split; lra.
  - replace (sw * si * X + cw * si * Y) with (si * (sw * X + cw * Y)) by ring.
    split; nra.
  - replace ((0 * cw + 1 * sw * ci) * X + (- 0 * sw + 1 * cw * ci) * Y)
      with (ci * (sw * X + cw * Y)) by ring.
    split; nra.
Qed.

(** C6, refuted as stated. At J2000 the fixture's mean anomaly is
    [L - w = -2.48284] degrees, as the specification says, but the position is not
    near [(0.98, ~0, ~0.17)]: its first component is negative, more than [1]
    below [0.98], and its third is more than [0.7] above [0.17]. *)
Lemma earth_fixture_is_elsewhere :
  getMeanAnomaly (T:=R) earthLike J2000 = - (248284 / 100000) /\
  Vector3.x (getOrbitPosition earthLike (getMeanAnomaly (T:=R) earthLike J2000)) < 0.98 - 1 /\
  0.17 + 0.7 < Vector3.z (getOrbitPosition earthLike (getMeanAnomaly (T:=R) earthLike J2000)).
Proof.
  rewrite earthLike_meanAnomaly. pose proof earthLike_position as (Hx & _ & Hz).
  cbv zeta in Hx, Hz. repeat split; lra.
Qed.

(** C6, as the code has it. At J2000 the fixture's mean anomaly is
    [M = L - w = -2.48284] degrees, and solving Kepler's equation and applying
    the orbit frame transform yields a position within [0.0002] of
    [(-0.1771, 0.00000084, 0.9672)]: the Earth near ecliptic longitude
    100 degrees. *)
Theorem earth_fixture :
  let M := getMeanAnomaly (T:=R) earthLike J2000 in
  let pos := getOrbitPosition earthLike M in
  M = Elements.L earthLike - Elements.w earthLike /\
  M = - (248284 / 100000) /\
  (-0.1773 < Vector3.x pos < -0.1770) /\
  (0.00000084 < Vector3.y pos < 0.00000085) /\
  (0.9671 < Vector3.z pos < 0.9673).
Proof.
  cbv zeta. rewrite earthLike_meanAnomaly.
  split; [|split; [reflexivity|apply earthLike_position]].
  unfold earthLike. cbn [Elements.L Elements.w]. js_real. lra.
Qed.

(** ** Exact reals: convergence of the Kepler loop (C3) *)

(** [sin] and [cos] are 1-Lipschitz. *)
Lemma Rabs_le_both (a b : R) : Rabs a <= b -> - b <= a <= b.
Proof. unfold Rabs. destruct (Rcase_abs a); lra. Qed.

Lemma sin_abs_le (x : R) : Rabs (sin x) <= Rabs x.
Proof.
  assert (Hpos : forall y, 0 <= y -> Rabs (sin y) <= y).
  { intros y Hy. pose proof PI_bounds as HPI. apply Rabs_le. split.
    - destruct (Rle_dec y 1) as [Hle|Hgt].
      + pose proof (sin_ge_0 y Hy ltac:(lra)). lra.
      + pose proof (SIN_bound y). lra.
    - destruct (Req_dec y 0) as [->|Hne]; [rewrite sin_0; lra|].
      left. apply sin_lt_x. lra. }
  destruct (Rle_dec 0 x) as [Hx|Hx].
  - rewrite (Rabs_pos_eq x) by exact Hx. apply Hpos, Hx.
  - rewrite <- (Rabs_Ropp (sin x)), <- sin_neg, <- (Rabs_Ropp x).
    rewrite (Rabs_pos_eq (- x)) by lra. apply Hpos. lra.
Qed.

Lemma sin_lipschitz (a b : R) : Rabs (sin a - sin b) <= Rabs (a - b).
Proof.
  rewrite form4.
  replace (2 * cos ((a + b) / 2) * sin ((a - b) / 2))
    with (cos ((a + b) / 2) * (2 * sin ((a - b) / 2))) by ring.
  rewrite Rabs_mult.
  pose proof (COS_bound ((a + b) / 2)) as Hc.
  assert (Hc' : Rabs (cos ((a + b) / 2)) <= 1) by (apply Rabs_le; lra).
  pose proof (sin_abs_le ((a - b) / 2)) as Hs.
  assert (Hs' : Rabs (2 * sin ((a - b) / 2)) <= Rabs (a - b)).
  { rewrite Rabs_mult, (Rabs_pos_eq 2) by lra.
    replace (a - b) with (2 * ((a - b) / 2)) at 2 by field.
    rewrite (Rabs_mult 2), (Rabs_pos_eq 2) by lra. lra. }
  pose proof (Rabs_pos (2 * sin ((a - b) / 2))).
  pose proof (Rabs_pos (cos ((a + b) / 2))).
  nra.
Qed.

Lemma cos_lipschitz (a b : R) : Rabs (cos a - cos b) <= Rabs (a - b).
Proof.
  rewrite form2.
  replace (-2 * sin ((a - b) / 2) * sin ((a + b) / 2))
    with (- sin ((a + b) / 2) * (2 * sin ((a - b) / 2))) by ring.
  rewrite Rabs_mult, Rabs_Ropp.
  pose proof (SIN_bound ((a + b) / 2)) as Hc.
  assert (Hc' : Rabs (sin ((a + b) / 2)) <= 1) by (apply Rabs_le; lra).
  pose proof (sin_abs_le ((a - b) / 2)) as Hs.
  assert (Hs' : Rabs (2 * sin ((a - b) / 2)) <= Rabs (a - b)).
  { rewrite Rabs_mult, (Rabs_pos_eq 2) by lra.
    replace (a - b) with (2 * ((a - b) / 2)) at 2 by field.
    rewrite (Rabs_mult 2), (Rabs_pos_eq 2) by lra. lra. }
  pose proof (Rabs_pos (2 * sin ((a - b) / 2))).
  pose proof (Rabs_pos (sin ((a + b) / 2))).
  nra.
Qed.

(** The mean value theorem for [sin]. *)
Lemma sin_mvt (x y : R) :
  x < y -> exists c, x < c < y /\ sin y - sin x = cos c * (y - x).
Proof.
  intros Hlt.
  destruct (MVT_cor2 sin cos x y Hlt) as (c & Heq & Hc).
  - intros c _. apply derivable_pt_lim_sin.
  - exists c. split; [exact Hc|exact Heq].
Qed.

(** The residual before a pass is the correction times the derivative. *)
Lemma newton_residual_form (e M x : R) :
  1 - e * cos x <> 0 ->
  residual e M x = (x - newton e M x) * (1 - e * cos x).
Proof. intros HD. unfold residual, newton. field. exact HD. Qed.

Lemma denominator_bounds (e x : R) : 0 <= e <= 9 / 10 -> 1 / 10 <= 1 - e * cos x <= 19 / 10.
Proof. intros He. pose proof (COS_bound x). split; nra. Qed.

(** After a pass, the residual is at most [2 e] times the correction. *)
Lemma newton_residual (e M x : R) :
  0 <= e <= 9 / 10 ->
  Rabs (residual e M (newton e M x)) <= 2 * e * Rabs (x - newton e M x).
Proof.
  intros He. pose proof (denominator_bounds e x He) as HD.
  pose proof (newton_residual_form e M x ltac:(lra)) as Hf.
  set (y := newton e M x) in *.
  assert (Heq : residual e M y = - e * (x - y) * cos x + e * (sin x - sin y)).
  { assert (HMeq : M = x - e * sin x - (x - y) * (1 - e * cos x))
      by (unfold residual in Hf; lra).
    unfold residual. rewrite HMeq at 1. ring. }
  rewrite Heq.
  pose proof (sin_lipschitz x y) as Hs. pose proof (COS_bound x) as Hc.
  assert (Hc' : Rabs (cos x) <= 1) by (apply Rabs_le; lra).
  eapply Rle_trans; [apply Rabs_triang|].
  rewrite !Rabs_mult, Rabs_Ropp, (Rabs_pos_eq e) by lra.
  pose proof (Rabs_pos (x - y)) as HA. pose proof (Rabs_pos (cos x)) as HC.
  pose proof (Rabs_pos (sin x - sin y)) as HS.
  set (A := Rabs (x - y)) in *. set (C := Rabs (cos x)) in *.
  set (B := Rabs (sin x - sin y)) in *.
  assert (HeA : 0 <= e * A) by nra.
  assert (H1 : e * A * C <= e * A) by nra.
  assert (H2 : e * B <= e * A) by nra.
  lra.
Qed.

Lemma residual_increasing (e M x y : R) :
  0 <= e <= 9 / 10 -> x <= y ->
  (1 - e) * (y - x) <= residual e M y - residual e M x <= (1 + e) * (y - x).
Proof.
  intros He Hxy. unfold residual.
  pose proof (sin_lipschitz y x) as Hs. rewrite (Rabs_pos_eq (y - x)) in Hs by lra.
  apply Rabs_le_both in Hs. split; nra.
Qed.

Lemma residual_continuity (e M : R) : continuity (residual e M).
Proof. unfold residual. reg. Qed.

(** For [M] in [[0, PI]] the residual is convex on [[0, PI]] and has its
    root [r] there.  The first pass lands between [r] and [PI]; from there on
    the passes decrease to [r], the distance to [r] shrinking by [18/19] at
    least and by [9] times its square at most. *)
Section Convergence.
Variables e M : R.
Hypothesis He : 0 <= e <= 9 / 10.
Hypothesis HM : 0 <= M <= PI.

Lemma root_exists : exists r, 0 <= r <= PI /\ residual e M r = 0.
Proof.
  destruct (IVT_cor (residual e M) 0 PI (residual_continuity e M)) as (r & Hr & Hz).
  - lra.
  - unfold residual. rewrite sin_0, sin_PI. nra.
  - exists r. split; assumption.
Qed.

Variable r : R.
Hypothesis Hr : 0 <= r <= PI.
Hypothesis Hroot : residual e M r = 0.

(** A pass from the right of the root stays right of it, and contracts. *)
Lemma newton_step (x : R) :
  r <= x <= PI ->
  r <= newton e M x <= x /\
  newton e M x - r <= 18 / 19 * (x - r) /\
  newton e M x - r <= 9 * (x - r) ^ 2.
Proof.
  intros Hx. pose proof (denominator_bounds e x He) as HD.
  pose proof (newton_residual_form e M x ltac:(lra)) as Hf.
  set (y := newton e M x) in *. set (D := 1 - e * cos x) in *.
  destruct (Req_dec x r) as [->|Hne].
  - rewrite Hroot in Hf. assert (Hy : y = r) by nra. rewrite Hy. repeat split; nra.
  - destruct (sin_mvt r x ltac:(lra)) as (c & Hc & Hmvt).
    assert (Hres : residual e M x = (x - r) * (1 - e * cos c)).
    { unfold residual in *. nra. }
    pose proof (cos_decr_1 c x ltac:(lra) ltac:(lra) ltac:(lra) ltac:(lra) ltac:(lra)) as Hdec.
    pose proof (cos_lipschitz c x) as Hlip.
    rewrite (Rabs_pos_eq (cos c - cos x)) in Hlip by lra.
    rewrite <- Rabs_Ropp, (Rabs_pos_eq (- (c - x))) in Hlip by lra.
    pose proof (COS_bound c) as Hcc. pose proof (COS_bound x) as Hcx.
    assert (Hkey : (y - r) * D = (x - r) * (e * (cos c - cos x))).
    { rewrite Hres in Hf. unfold D in *. lra. }
    set (eps := x - r) in *. set (g := e * (cos c - cos x)) in *.
    assert (Hg0 : 0 <= g) by (unfold g; nra).
    assert (Hg1 : g <= e * eps) by (unfold g, eps; nra).
    assert (Heps : 0 < eps) by (unfold eps; lra).
    assert (Hy0 : 0 <= y - r).
    { apply Rmult_le_reg_r with D; [lra|]. rewrite Hkey. nra. }
    assert (Hlin : 19 * g <= 18 * D) by (unfold g, D; nra).
    assert (Hy1 : y - r <= 18 / 19 * eps).
    { apply Rmult_le_reg_r with D; [lra|]. rewrite Hkey. nra. }
    assert (Hy2 : y - r <= 9 * eps ^ 2).
    { apply Rmult_le_reg_r with D; [lra|]. rewrite Hkey. nra. }
    unfold eps in *. repeat split; lra.
Qed.

Lemma first_pass_form :
  newton e M M = M + e * sin M / (1 - e * cos M).
Proof.
  pose proof (denominator_bounds e M He). unfold newton. field. lra.
Qed.

(** The first pass, from [E = M], does not jump beyond [PI]. *)
Lemma first_pass_below_PI : e * sin M <= (PI - M) * (1 - e * cos M).
Proof.
  pose proof PI_bounds as HPI.
  pose proof (sin_ge_0 M ltac:(lra) ltac:(lra)) as Hs0.
  pose proof (SIN_bound M) as Hs1. pose proof (COS_bound M) as Hc1.
  destruct (Rle_dec (PI / 2) M) as [Hhalf|Hhalf].
  - pose proof (cos_le_0 M Hhalf ltac:(lra)) as Hc.
    pose proof (sin_abs_le (PI - M)) as Hs. rewrite sin_PI_x in Hs.
    rewrite !Rabs_pos_eq in Hs by lra.
    assert (H1 : 0 <= e * - cos M) by (apply Rmult_le_pos; lra).
    assert (H2 : 0 <= (PI - M) * (e * - cos M)) by (apply Rmult_le_pos; lra).
    assert (H3 : e * sin M <= sin M) by nra.
    lra.
  - assert (Hc0 : 0 <= cos M) by (apply cos_ge_0; lra).
    destruct (Rle_dec M (PI / 3)) as [Hthird|Hthird].
    + pose proof (sin2_cos2 M) as Hsc. unfold Rsqr in Hsc.
      set (s := sin M) in *. set (c := cos M) in *. set (A := PI - M).
      assert (HA : 2.09 <= A) by (unfold A; lra).
      assert (Ht : (s + A * c) * (s + A * c) <= 1 + A * A).
      { assert (0 <= (A * s - c) * (A * s - c)) by apply Rle_0_sqr. nra. }
      assert (Ht0 : 0 <= s + A * c) by nra.
      assert (Het : e * (s + A * c) <= A).
      { destruct (Rle_dec (e * (s + A * c)) A) as [Hok|Hbad]; [exact Hok|exfalso].
        assert (Hsq : A * A < (e * (s + A * c)) * (e * (s + A * c))) by nra.
        assert (He2 : e * e <= 81 / 100) by nra.
        assert ((e * (s + A * c)) * (e * (s + A * c))
                <= 81 / 100 * (1 + A * A)).
        { replace ((e * (s + A * c)) * (e * (s + A * c)))
            with ((e * e) * ((s + A * c) * (s + A * c))) by ring.
          assert (0 <= (s + A * c) * (s + A * c)) by apply Rle_0_sqr. nra. }
        nra. }
      fold A. nra.
    + destruct (Rle_dec M (3 / 2)) as [Hmid|Hmid].
      * pose proof (cos_decr_1 (PI / 3) M ltac:(lra) ltac:(lra) ltac:(lra) ltac:(lra)
                      ltac:(lra)) as Hc.
        rewrite cos_PI3 in Hc.
        assert (H1 : e * cos M <= 0.45) by nra.
        assert (H2 : 1.64 * 0.55 <= (PI - M) * (1 - e * cos M)) by nra.
        assert (H3 : e * sin M <= 0.9) by nra.
        lra.
      * pose proof (sin_abs_le (PI / 2 - M)) as Hs. rewrite sin_shift in Hs.
        rewrite !Rabs_pos_eq in Hs by lra.
        assert (H1 : e * cos M <= 0.1) by nra.
        assert (H2 : 1.5 * 0.9 <= (PI - M) * (1 - e * cos M)) by nra.
        assert (H3 : e * sin M <= 0.9) by nra.
        lra.
Qed.

Lemma first_pass :
  r <= newton e M M <= PI.
Proof.
  pose proof (denominator_bounds e M He) as HD.
  pose proof first_pass_below_PI as Hbelow.
  pose proof (sin_ge_0 M ltac:(lra) ltac:(lra)) as Hs0.
  pose proof first_pass_form as Hform.
  set (y := newton e M M) in *.
  assert (HyD : (y - M) * (1 - e * cos M) = e * sin M).
  { rewrite Hform. field. lra. }
  assert (HyM : M <= y) by nra.
  assert (HyPI : y <= PI) by nra.
  split; [|exact HyPI].
  assert (Hres : 0 <= residual e M y).
  { destruct (Req_dec y M) as [Heq|Hne].
    - unfold residual. rewrite Heq in *. nra.
    - destruct (sin_mvt M y ltac:(lra)) as (c & Hc & Hmvt).
      pose proof (cos_decr_1 M c ltac:(lra) ltac:(lra) ltac:(lra) ltac:(lra) ltac:(lra)).
      assert (H1 : 0 <= e * ((cos M - cos c) * (y - M))).
      { apply Rmult_le_pos; [lra|]. apply Rmult_le_pos; lra. }
      assert (H2 : e * sin y = e * sin M + e * (cos c * (y - M))).
      { rewrite <- Rmult_plus_distr_l. f_equal. lra. }
      unfold residual. lra. }
  destruct (Rle_dec r y) as [Hok|Hbad]; [exact Hok|exfalso].
  pose proof (residual_increasing e M y r He ltac:(lra)) as Hinc.
  rewrite Hroot in Hinc. nra.
Qed.

Lemma anomaly_linear (k : nat) :
  r <= anomaly e M (S k) <= PI /\ anomaly e M (S k) - r <= (18 / 19) ^ k * PI.
Proof.
  induction k as [|k [IHin IHle]].
  - pose proof first_pass. simpl. unfold anomaly. simpl. lra.
  - change (anomaly e M (S (S k))) with (newton e M (anomaly e M (S k))).
    pose proof (newton_step (anomaly e M (S k)) IHin) as (Hin & Hlin & _).
    split; [lra|]. simpl pow. nra.
Qed.

Lemma anomaly_quadratic (k : nat) :
  anomaly e M (S (S k)) - r <= 9 * (anomaly e M (S k) - r) ^ 2.
Proof.
  change (anomaly e M (S (S k))) with (newton e M (anomaly e M (S k))).
  apply newton_step, anomaly_linear.
Qed.

Lemma anomaly_decreasing (k j : nat) :
  anomaly e M (S (k + j)) - r <= anomaly e M (S k) - r.
Proof.
  induction j as [|j IH].
  - rewrite Nat.add_0_r. lra.
  - rewrite Nat.add_succ_r.
    change (anomaly e M (S (S (k + j)))) with (newton e M (anomaly e M (S (k + j)))).
    pose proof (newton_step (anomaly e M (S (k + j))) (proj1 (anomaly_linear (k + j)))). lra.
Qed.

(** 75 passes at rate [18/19] bring the distance below [0.0546], five
    quadratic ones below [0.000001]. *)
Lemma pow_18_19_75 : (18 / 19) ^ 75 <= 0.01738.
Proof.
  assert (H5 : (18 / 19) ^ 5 <= 0.7632) by lra.
  assert (H0 : 0 <= (18 / 19) ^ 5) by (apply pow_le; lra).
  replace 75%nat with (5 * 15)%nat by reflexivity. rewrite pow_mult.
  set (a := (18 / 19) ^ 5) in *.
  assert (H15 : a ^ 15 <= 0.7632 ^ 15) by (apply pow_incr; lra).
  lra.
Qed.

Lemma anomaly_100 : 0 <= anomaly e M 100 - r <= 1 / 1000000.
Proof.
  pose proof PI_bounds as HPI.
  pose proof (anomaly_linear 75) as (_ & H76).
  pose proof pow_18_19_75 as Hpow.
  assert (H76' : anomaly e M 76 - r <= 0.0546) by nra.
  pose proof (anomaly_linear 75) as ((L76 & _) & _).
  pose proof (anomaly_linear 76) as ((L77 & _) & _).
  pose proof (anomaly_linear 77) as ((L78 & _) & _).
  pose proof (anomaly_linear 78) as ((L79 & _) & _).
  pose proof (anomaly_linear 99) as ((L100 & _) & _).
  pose proof (anomaly_quadratic 75) as Q77.
  pose proof (anomaly_quadratic 76) as Q78.
  pose proof (anomaly_quadratic 77) as Q79.
  pose proof (anomaly_quadratic 78) as Q80.
  pose proof (anomaly_linear 79) as ((L80 & _) & _).
  pose proof (anomaly_quadratic 79) as Q81.
  pose proof (anomaly_decreasing 80 19) as D100.
  change (S (80 + 19)) with 100%nat in D100.
  assert (H77 : anomaly e M 77 - r <= 0.02684) by nra.
  assert (H78 : anomaly e M 78 - r <= 0.00649) by nra.
  assert (H79 : anomaly e M 79 - r <= 0.00038) by nra.
  assert (H80 : anomaly e M 80 - r <= 0.0000013) by nra.
  assert (H81 : anomaly e M 81 - r <= 0.000001) by nra.
  lra.
Qed.

Lemma cap_residual_lower_half : Rabs (residual e M (anomaly e M 100)) <= 19 / 10000000.
Proof.
  pose proof anomaly_100 as H100.
  pose proof (residual_increasing e M r (anomaly e M 100) He ltac:(lra)) as Hinc.
  rewrite Hroot in Hinc. apply Rabs_le. nra.
Qed.
End Convergence.

(** The case of [M] in [[PI, 2 PI)] is the mirror image of the case of
    [2 PI - M]. *)
Lemma sin_mirror (x : R) : sin (2 * PI - x) = - sin x.
Proof. rewrite sin_minus, sin_2PI, cos_2PI. ring. Qed.

Lemma cos_mirror (x : R) : cos (2 * PI - x) = cos x.
Proof. rewrite cos_minus, sin_2PI, cos_2PI. ring. Qed.

Lemma newton_mirror (e M E : R) :
  newton e (2 * PI - M) (2 * PI - E) = 2 * PI - newton e M E.
Proof. unfold newton. rewrite sin_mirror, cos_mirror. unfold Rdiv. ring. Qed.

Lemma anomaly_mirror (e M : R) (k : nat) :
  anomaly e (2 * PI - M) k = 2 * PI - anomaly e M k.
Proof.
  induction k as [|k IH]; [reflexivity|].
  change (anomaly e (2 * PI - M) (S k))
    with (newton e (2 * PI - M) (anomaly e (2 * PI - M) k)).
  rewrite IH, newton_mirror. reflexivity.
Qed.

Lemma residual_mirror (e M E : R) :
  residual e (2 * PI - M) (2 * PI - E) = - residual e M E.
Proof. unfold residual. rewrite sin_mirror. ring. Qed.

(** A loop that runs to the cap of 100 passes has converged. *)
Lemma cap_residual (e M : R) :
  0 <= e <= 9 / 10 -> 0 <= M < 2 * PI ->
  Rabs (residual e M (anomaly e M 100)) <= 19 / 10000000.
Proof.
  intros He HM. destruct (Rle_dec M PI) as [Hlow|Hhigh].
  - destruct (root_exists e M ltac:(lra)) as (r & Hr & Hroot).
    apply (cap_residual_lower_half e M He ltac:(lra) r Hr Hroot).
  - set (M' := 2 * PI - M).
    replace M with (2 * PI - M') by (unfold M'; ring).
    rewrite anomaly_mirror, residual_mirror, Rabs_Ropp.
    destruct (root_exists e M' ltac:(unfold M'; lra)) as (r & Hr & Hroot).
    apply (cap_residual_lower_half e M' He ltac:(unfold M'; lra) r Hr Hroot).
Qed.

Lemma kepler_iter_E (e M : R) (k : nat) (st : KeplerState) :
  ks_E (Nat.iter k (kepler_body e M) st) = Nat.iter k (newton e M) (ks_E st).
Proof.
  induction k as [|k IH]; [reflexivity|]. rewrite !Nat.iter_succ, kepler_body_E, IH. reflexivity.
Qed.

Lemma kepler_body_delta (e M : R) (st : KeplerState) :
  ks_delta (kepler_body e M st) = ks_E st - newton e M (ks_E st).
Proof.
  unfold kepler_body, newton. cbn [ks_delta]. js_real. rewrite !real_dec_0_aux. ring.
Qed.

Lemma real_gtb_false (x y : R) : real_gtb x y = false -> x <= y.
Proof. unfold real_gtb. destruct (Rlt_dec y x); [discriminate|lra]. Qed.

(** In exact reals, a correction below [1e-6] in magnitude fails the loop
    test. *)
Lemma kepler_cond_below_real (st : @KeplerState R) :
  Rabs (ks_delta st) < 1 / 1000000 -> kepler_cond st = false.
Proof.
  intros Hlt. unfold kepler_cond. js_real. unfold real_gtb.
  destruct (Rlt_dec (1 / 1000000) (Rabs (ks_delta st))) as [Hgt|_]; [lra|reflexivity].
Qed.

(** C3. In exact real arithmetic, for every eccentricity [e] in [[0, 0.9]]
    and every mean anomaly [M] in [[0, 2 PI)] radians, the eccentric anomaly
    [E] that the loop of [getOrbitPosition] produces satisfies
    [|E - e sin E - M| < 1e-5]: either the loop stopped on a correction of at
    most [1e-6], and the residual is at most [2 e] times that, or it ran its
    100 passes, and then it has converged. *)
Theorem kepler_residual_bound (e M : R) :
  0 <= e <= 9 / 10 -> 0 <= M < 2 * PI ->
  let E := solveKepler e M in
  Rabs (E - e * sin E - M) < 1 / 100000.
Proof.
  intros He HM E. subst E. fold (residual e M (solveKepler e M)).
  destruct (kepler_steps_trace e M 100 (kepler_init M)) as (k & Hle & Heq & _ & Hlast).
  unfold solveKepler. rewrite Heq, kepler_iter_E. cbn [ks_E kepler_init].
  fold (anomaly e M k).
  destruct Hlast as [->|Hstop].
  - pose proof (cap_residual e M He HM). lra.
  - destruct k as [|k].
    + exfalso. apply real_gtb_false in Hstop. unfold Nat.iter in Hstop.
      cbn [nat_rect kepler_init ks_delta] in Hstop.
      js_real. rewrite Rabs_pos_eq in Hstop; lra.
    + apply real_gtb_false in Hstop. rewrite Nat.iter_succ in Hstop.
      rewrite kepler_body_delta, kepler_iter_E in Hstop. cbn [ks_E kepler_init] in Hstop.
      fold (anomaly e M k) in Hstop.
      change (anomaly e M (S k)) with (newton e M (anomaly e M k)).
      pose proof (newton_residual e M (anomaly e M k) He) as Hres.
      js_real.
      pose proof (Rabs_pos (anomaly e M k - newton e M (anomaly e M k))). nra.
Qed.

(** C3 at [e = 0.5], [M = 1]. *)
Lemma kepler_residual_bound_witness :
  let E := solveKepler (1 / 2) 1 in Rabs (E - 1 / 2 * sin E - 1) < 1 / 100000.
Proof.
  apply (kepler_residual_bound (1 / 2) 1).
  - lra.
  - pose proof PI_bounds. lra.
Defined.

(** * Further properties of the code *)

(** ** Ticks on any number instance *)

Section Ticks.
Context {T : Type} `{JSNumber T}.

(** Induction on a body and, inside, on the bodies of its satellites. *)
Lemma BodyObj_tree_ind (P : BodyObj T -> Prop) :
  (forall m d l sats, Forall P sats -> P (mkBodyObj m d l sats)) -> forall b, P b.
Proof.
  intros Hnode. fix IH 1. intros [m d l sats]. apply Hnode.
  induction sats as [|s sats IHsats]; constructor; [apply IH|exact IHsats].
Qed.

Lemma update_mesh_overwrites (S S' : Settings T) (p p' : option (Mesh T)) (b : BodyObj T)
  (jd jd' h h' : T) :
  mesh (updateBodyPhysics S p (updateBodyPhysics S' p' b jd' h') jd h)
  = mesh (updateBodyPhysics S p b jd h).
Proof.
  destruct b as [m d l sats]. cbn [updateBodyPhysics mesh]. destruct (isStar d); reflexivity.
Qed.

Lemma update_overwrites (S S' : Settings T) (jd jd' h h' : T) (b : BodyObj T) :
  forall p p' : option (Mesh T),
    updateBodyPhysics S p (updateBodyPhysics S' p' b jd' h') jd h = updateBodyPhysics S p b jd h.
Proof.
  induction b as [m d l sats IH] using BodyObj_tree_ind. intros p p'.
  pose proof (update_mesh_overwrites S S' p p' (mkBodyObj m d l sats) jd jd' h h') as Hmesh.
  cbn [updateBodyPhysics mesh] in *. f_equal.
  - exact Hmesh.
  - destruct l as [line|]; [|reflexivity]. destruct p, p'; reflexivity.
  - rewrite map_map. apply map_ext_in. intros sat Hin.
    rewrite Forall_forall in IH. rewrite Hmesh. apply (IH sat Hin).
Qed.

(** X1. A tick leaves no trace of the ticks before it: after any sequence of
    ticks, at any timestamps, a body and the whole tree of its satellites
    are what the last tick alone makes of them (positions, spins, scales and
    orbit lines), so the state carries no accumulated error. *)
Theorem last_tick_decides (S : Settings T) (parent : option (Mesh T)) (b : BodyObj T)
  (times : list (T * T)) (jd h : T) :
  ticks S parent b (times ++ [(jd, h)]) = updateBodyPhysics S parent b jd h.
Proof.
  unfold ticks. rewrite fold_left_app. cbn [fold_left fst snd].
  generalize dependent b. induction times as [|t times IH]; intros b; [reflexivity|].
  cbn [fold_left]. rewrite IH. apply update_overwrites.
Qed.

Lemma update_points (S : Settings T) (parent : option (Mesh T)) (b : BodyObj T) (jd h : T) :
  option_map (@points T) (orbitLine (updateBodyPhysics S parent b jd h))
  = option_map (@points T) (orbitLine b).
Proof. destruct b as [m d [l|] s]; simpl; destruct parent; reflexivity. Qed.

Lemma ticks_points (S : Settings T) (parent : option (Mesh T)) (times : list (T * T)) :
  forall b : BodyObj T,
    option_map (@points T) (orbitLine (ticks S parent b times))
    = option_map (@points T) (orbitLine b).
Proof.
  induction times as [|t times IH]; intros b; [reflexivity|].
  unfold ticks in *. cbn [fold_left]. rewrite IH. apply update_points.
Qed.

(** X2. A body has an orbit line exactly when its semi-major axis passes the
    test [a > 0], and the line's points are the 129 positions that
    [createCelestialBody] sampled, at the mean anomalies [(i / 128) * 360] for
    [i = 0 .. 128]: no tick moves, adds or removes a point, it only rescales
    the line. *)
Theorem orbit_line_points_are_fixed (S : Settings T) (parent : option (Mesh T))
  (d : BodyData T) (times : list (T * T)) :
  option_map (@points T) (orbitLine (ticks S parent (createCelestialBody d) times))
  = if (Elements.a (elements d) >? int 0)%js
    then Some (map (fun i => getOrbitPosition (elements d)
                               (int (Z.of_nat i) / int 128 * int 360)%js)
                 (seq 0 129))
    else None.
Proof.
  rewrite ticks_points. destruct d as [r el p f s sats].
  cbn [createCelestialBody orbitLine elements].
  destruct (Elements.a el >? int 0)%js; reflexivity.
Qed.
End Ticks.

(** ** Exact reals: the orbit is periodic and closed *)

Lemma sin_turn (x : R) : sin (x + 2 * PI) = sin x.
Proof. rewrite sin_plus, sin_2PI, cos_2PI. ring. Qed.

Lemma cos_turn (x : R) : cos (x + 2 * PI) = cos x.
Proof. rewrite cos_plus, sin_2PI, cos_2PI. ring. Qed.

Lemma newton_turn (e M E : R) : newton e (M + 2 * PI) (E + 2 * PI) = newton e M E + 2 * PI.
Proof. unfold newton. rewrite sin_turn, cos_turn. unfold Rdiv. ring. Qed.

(** Two runs of the loop, on mean anomalies one turn apart, stop together,
    one turn apart. *)
Lemma kepler_steps_turn (e M : R) :
  forall left st st',
    ks_E st' = ks_E st + 2 * PI -> ks_delta st' = ks_delta st ->
    ks_E (kepler_steps e (M + 2 * PI) left st') = ks_E (kepler_steps e M left st) + 2 * PI.
Proof.
  induction left as [|left IH]; intros st st' HE Hd; [exact HE|].
  cbn [kepler_steps]. rewrite Hd.
  destruct (Math_abs (ks_delta st) >? dec 1 6)%js; [|exact HE].
  apply IH.
  - rewrite !kepler_body_E, HE. apply newton_turn.
  - rewrite !kepler_body_delta, HE, newton_turn. ring.
Qed.

Lemma solveKepler_turn (e M : R) : solveKepler e (M + 2 * PI) = solveKepler e M + 2 * PI.
Proof. unfold solveKepler. apply kepler_steps_turn; reflexivity. Qed.

Lemma orbitFrame_turn (el : Elements.t R) (E : R) :
  orbitFrame el (E + 2 * PI) = orbitFrame el E.
Proof. unfold orbitFrame. js_real. rewrite sin_turn, cos_turn. reflexivity. Qed.

Lemma getOrbitPosition_turn (el : Elements.t R) (M : R) :
  getOrbitPosition el (M + 360) = getOrbitPosition el M.
Proof.
  unfold getOrbitPosition, DEG_TO_RAD. js_real. rewrite !real_dec_0_aux.
  replace ((M + 360) * (PI / 180)) with (M * (PI / 180) + 2 * PI) by field.
  rewrite solveKepler_turn, orbitFrame_turn. reflexivity.
Qed.

(** X3. In exact reals [getOrbitPosition] has period 360 in the mean anomaly,
    which the code never reduces, and the orbit line that
    [createCelestialBody] samples is closed: its last point, at 360 degrees,
    is its first, at 0. *)
Theorem orbit_is_closed (el : Elements.t R) (M : R) (d : BodyData R) :
  getOrbitPosition el (M + 360) = getOrbitPosition el M /\
  option_map (fun line => nth 128 (points line) Vector3.origin)
    (orbitLine (createCelestialBody d))
  = option_map (fun line => nth 0 (points line) Vector3.origin)
      (orbitLine (createCelestialBody d)).
Proof.
  split; [apply getOrbitPosition_turn|].
  destruct d as [r eld p f s sats]. cbn [createCelestialBody orbitLine].
  destruct (Elements.a eld >? int 0)%js; [|reflexivity].
  cbn [option_map points]. f_equal.
  set (f0 := fun i : nat => getOrbitPosition eld (int (Z.of_nat i) / int 128 * int 360)%js).
  assert (Hnth : forall i, (i < 129)%nat -> nth i (map f0 (seq 0 129)) Vector3.origin = f0 i).
  { intros i Hi. rewrite (nth_indep _ Vector3.origin (f0 0%nat)) by (rewrite length_map, length_seq; lia).
    rewrite map_nth, seq_nth by lia. reflexivity. }
  rewrite !Hnth by lia. unfold f0. js_real. cbn [Z.of_nat Pos.of_succ_nat Pos.succ].
  rewrite !real_dec_0_aux.
  replace (128 / 128 * 360) with (0 / 128 * 360 + 360) by field.
  apply getOrbitPosition_turn.
Qed.

Lemma getMeanAnomaly_period (el : Elements.t R) (jd : R) :
  getMeanAnomaly el (jd + 360 * Rpower (Elements.a el) (15 / 10) / (9856076686 / 10000000000))
  = getMeanAnomaly el jd + 360.
Proof.
  unfold getMeanAnomaly. js_real.
  pose proof (exp_pos (15 / 10 * ln (Elements.a el))) as Hpos.
  fold (Rpower (Elements.a el) (15 / 10)) in Hpos.
  field. lra.
Qed.

(** X4. In exact reals a body with [a > 0] is back where it was after
    [360 / n] days, with [n = 0.9856076686 / a^1.5] its mean motion, that is
    after [a^1.5] years of [360 / 0.9856076686 = 365.2568...] days (Kepler's
    third law), whatever the settings and the parent. *)
Theorem orbital_period (S : Settings R) (parent : option (Mesh R)) (b : BodyObj R)
  (jd h h' : R) :
  let a := Elements.a (elements (data b)) in
  let period := 360 * Rpower a (15 / 10) / (9856076686 / 10000000000) in
  0 < a ->
  period = 360 / (9856076686 / 10000000000 / Rpower a (15 / 10)) /\
  position (mesh (updateBodyPhysics S parent b (jd + period) h'))
  = position (mesh (updateBodyPhysics S parent b jd h)).
Proof.
  intros a period Ha. split.
  - subst period. pose proof (exp_pos (15 / 10 * ln a)) as Hpos.
    fold (Rpower a (15 / 10)) in Hpos. field. lra.
  - rewrite !update_position. destruct (isStar (data b)); [reflexivity|].
    subst period a. rewrite getMeanAnomaly_period, getOrbitPosition_turn. reflexivity.
Qed.

(** The orbital period at the Earth with its Moon. *)
Lemma orbital_period_witness :
  let b := createCelestialBody (T:=R) Earth in
  let a := Elements.a (elements (data b)) in
  let period := 360 * Rpower a (15 / 10) / (9856076686 / 10000000000) in
  0 < a /\
  period = 360 / (9856076686 / 10000000000 / Rpower a (15 / 10)) /\
  position (mesh (updateBodyPhysics DEFAULTS None b (2451545 + period) 24))
  = position (mesh (updateBodyPhysics DEFAULTS None b 2451545 0)).
Proof.
  intros b a period.
  assert (Ha : 0 < a) by (subst a b; cbn; unfold real_dec; cbn; lra).
  split; [exact Ha|].
  exact (orbital_period DEFAULTS None b 2451545 0 24 Ha).
Defined.

(** ** Exact reals: the Kepler loop on an unreduced mean anomaly *)

Lemma residual_turn (e M E : R) : residual e (M + 2 * PI) (E + 2 * PI) = residual e M E.
Proof. unfold residual. rewrite sin_turn. ring. Qed.

(** A property of the mean anomaly that a turn more or less does not change
    holds everywhere once it holds on [[0, 2 PI)]. *)
Lemma by_turns (P : R -> Prop) :
  (forall M, P (M + 2 * PI) <-> P M) ->
  (forall M, 0 <= M < 2 * PI -> P M) ->
  forall M, P M.
Proof.
  intros Hturn Hfirst.
  assert (Hup : forall (n : nat) M, P (M + INR n * (2 * PI)) <-> P M).
  { induction n as [|n IH]; intros M.
    - simpl. replace (M + 0 * (2 * PI)) with M by ring. tauto.
    - rewrite S_INR. replace (M + (INR n + 1) * (2 * PI)) with (M + INR n * (2 * PI) + 2 * PI)
        by ring.
      rewrite Hturn. apply IH. }
  intros M. pose proof PI_bounds as HPI.
  destruct (archimed (M / (2 * PI))) as [Hgt Hle].
  set (k := (up (M / (2 * PI)) - 1)%Z).
  assert (Hk : IZR k = IZR (up (M / (2 * PI))) - 1) by (unfold k; rewrite minus_IZR; ring).
  assert (HM : M = M / (2 * PI) * (2 * PI)) by (field; lra).
  assert (Hlo : 0 <= M - IZR k * (2 * PI)).
  { rewrite Hk. assert (Hq : (IZR (up (M / (2 * PI))) - 1) * (2 * PI) <= M / (2 * PI) * (2 * PI)).
    { apply Rmult_le_compat_r; lra. }
    lra. }
  assert (Hhi : M - IZR k * (2 * PI) < 2 * PI).
  { rewrite Hk. assert (Hq : M / (2 * PI) * (2 * PI) < IZR (up (M / (2 * PI))) * (2 * PI)).
    { apply Rmult_lt_compat_r; lra. }
    lra. }
  destruct (Z_le_gt_dec 0 k) as [Hpos|Hneg].
  - replace M with (M - IZR k * (2 * PI) + INR (Z.to_nat k) * (2 * PI)).
    + apply Hup, Hfirst. split; assumption.
    + rewrite INR_IZR_INZ, Z2Nat.id by lia. ring.
  - apply (Hup (Z.to_nat (- k))).
    replace (M + INR (Z.to_nat (- k)) * (2 * PI)) with (M - IZR k * (2 * PI)).
    + apply Hfirst. split; assumption.
    + rewrite INR_IZR_INZ, Z2Nat.id by lia. rewrite opp_IZR. ring.
Qed.

(** The bound on [[0, 2 PI)]: a loop that stops early stops on a correction of
    at most [1e-6], which bounds the residual, and a loop that runs its 100
    passes has converged. *)
Lemma residual_first_turn (e M : R) :
  0 <= e <= 9 / 10 -> 0 <= M < 2 * PI ->
  Rabs (residual e M (solveKepler e M)) < 1 / 100000.
Proof.
  intros He HM.
  destruct (kepler_steps_trace e M 100 (kepler_init M)) as (k & Hle & Heq & _ & Hlast).
  unfold solveKepler. rewrite Heq, kepler_iter_E. cbn [ks_E kepler_init].
  fold (anomaly e M k).
  destruct Hlast as [->|Hstop].
  - pose proof (cap_residual e M He HM). lra.
  - destruct k as [|k].
    + exfalso. apply real_gtb_false in Hstop. unfold Nat.iter in Hstop.
      cbn [nat_rect kepler_init ks_delta] in Hstop.
      js_real. rewrite Rabs_pos_eq in Hstop; lra.
    + apply real_gtb_false in Hstop. rewrite Nat.iter_succ in Hstop.
      rewrite kepler_body_delta, kepler_iter_E in Hstop. cbn [ks_E kepler_init] in Hstop.
      fold (anomaly e M k) in Hstop.
      change (anomaly e M (S k)) with (newton e M (anomaly e M k)).
      pose proof (newton_residual e M (anomaly e M k) He) as Hres.
      js_real.
      pose proof (Rabs_pos (anomaly e M k - newton e M (anomaly e M k))). nra.
Qed.

Lemma residual_any_turn (e M : R) :
  0 <= e <= 9 / 10 -> Rabs (residual e M (solveKepler e M)) < 1 / 100000.
Proof.
  intros He. revert M. apply (by_turns (fun M => Rabs (residual e M (solveKepler e M)) < 1 / 100000)).
  - intros M. rewrite solveKepler_turn, residual_turn. tauto.
  - intros M HM. apply residual_first_turn; assumption.
Qed.

(** X5. In exact reals, for every eccentricity in [[0, 0.9]] the loop of
    [getOrbitPosition] solves Kepler's equation to within [1e-5] at every
    mean anomaly, however many turns it counts and of either sign:
    [getMeanAnomaly] grows with the date and is passed on unreduced, and the
    loop started at [E = M] works as well there as within the first turn. *)
Theorem kepler_residual_any_turn (e M : R) :
  0 <= e <= 9 / 10 ->
  let E := solveKepler e M in
  Rabs (E - e * sin E - M) < 1 / 100000.
Proof. intros He. exact (residual_any_turn e M He). Qed.

(** The bound at [e = 0.5], [M = -1000]. *)
Lemma kepler_residual_any_turn_witness :
  let E := solveKepler (1 / 2) (- 1000) in Rabs (E - 1 / 2 * sin E - - 1000) < 1 / 100000.
Proof.
  apply (kepler_residual_any_turn (1 / 2) (- 1000)). lra.
Defined.

(** ** Exact reals: the shape of the orbit *)






(** ** Exact reals: a body, its orbit line and its parent's scale *)

Lemma update_rides (S : Settings R) (parent : option (Mesh R)) (b : BodyObj R) (jd h : R) :
  match parent with
  | Some p => Vector3.y (scale p) = Vector3.x (scale p) /\ Vector3.z (scale p) = Vector3.x (scale p)
  | None => True
  end ->
  isStar (data b) = false ->
  linePoint (updateBodyPhysics S parent b jd h) (getMeanAnomaly (elements (data b)) jd)
  = option_map (fun _ => position (mesh (updateBodyPhysics S parent b jd h)))
      (orbitLine (updateBodyPhysics S parent b jd h)).
Proof.
  intros Hp Hstar. unfold linePoint. rewrite update_data, update_position, Hstar.
  generalize (getOrbitPosition (elements (data b)) (getMeanAnomaly (elements (data b)) jd)).
  intros v. destruct b as [m d [line|] sats]; [|reflexivity].
  cbn [updateBodyPhysics orbitLine data option_map lineScale].
  unfold spec_place, scaled, Vector3.multiplyScalar, Vector3.divide, Vector3.set.
  destruct parent as [p|]; cbn [option_map lineScale Vector3.x Vector3.y Vector3.z]; [|reflexivity].
  destruct Hp as [Hy Hz]. rewrite Hy, Hz. js_real. f_equal. f_equal; unfold Rdiv; ring.
Qed.

Lemma update_tree_rides (S : Settings R) (jd h : R) (b : BodyObj R) :
  forall parent : option (Mesh R),
    match parent with
    | Some p =>
        Vector3.y (scale p) = Vector3.x (scale p) /\ Vector3.z (scale p) = Vector3.x (scale p)
    | None => True
    end ->
    Forall (fun c =>
              isStar (data c) = false ->
              linePoint c (getMeanAnomaly (elements (data c)) jd)
              = option_map (fun _ => position (mesh c)) (orbitLine c))
      (bodiesOf (updateBodyPhysics S parent b jd h)).
Proof.
  induction b as [m d l sats IH] using BodyObj_tree_ind. intros parent Hp.
  pose proof (update_rides S parent (mkBodyObj m d l sats) jd h Hp) as Hhead.
  pose proof (update_scale S parent (mkBodyObj m d l sats) jd h) as Hscale.
  cbn [updateBodyPhysics bodiesOf] in *. constructor.
  - cbn [data] in *. exact Hhead.
  - cbn [mesh] in Hscale. rewrite Forall_forall in *. intros c Hc.
    apply in_flat_map in Hc. destruct Hc as (sat' & Hsat' & Hc).
    apply in_map_iff in Hsat'. destruct Hsat' as (sat & Heq & Hsat). symmetry in Heq.
    assert (Hin : Forall (fun c =>
                isStar (data c) = false ->
                linePoint c (getMeanAnomaly (elements (data c)) jd)
                = option_map (fun _ => position (mesh c)) (orbitLine c))
              (bodiesOf sat')).
    { subst sat'. apply (IH sat Hsat). rewrite Hscale. destruct parent; split; reflexivity. }
    rewrite Forall_forall in Hin. apply Hin, Hc.
Qed.

(** X8. In exact reals every body rides its orbit line: after a tick, a body
    that is not the star, at any depth of the tree of satellites, sits at the
    point of its orbit for the current mean anomaly, scaled by the very scale
    that the tick gives its orbit line.  For a top-level body both are scaled
    by [universeScale]; for a satellite both carry the same factor
    [universeScale * distanceFactor / parentScale]. *)
Theorem body_rides_its_orbit_line (S : Settings R) (b : BodyObj R) (jd h : R) :
  Forall (fun c =>
            isStar (data c) = false ->
            linePoint c (getMeanAnomaly (elements (data c)) jd)
            = option_map (fun _ => position (mesh c)) (orbitLine c))
    (bodiesOf (updateBodyPhysics S None b jd h)).
Proof. apply update_tree_rides. exact I. Qed.

(** X9. In exact reals the division by the parent's scale cancels the
    parent: seen through the parent's scale, a satellite's offset from its
    parent is its orbit position times [universeScale] times its
    [distanceFactor] (or the default), and its size is its radius times
    [planetVisualScale], whatever the parent's scale, as long as that is not
    zero. *)
Theorem satellite_compensation (S : Settings R) (p : Mesh R) (b : BodyObj R) (jd h : R) :
  Vector3.x (scale p) <> 0 -> Vector3.y (scale p) <> 0 -> Vector3.z (scale p) <> 0 ->
  isStar (data b) = false ->
  let b' := updateBodyPhysics S (Some p) b jd h in
  let orbit := getOrbitPosition (elements (data b)) (getMeanAnomaly (elements (data b)) jd) in
  let factor := or_default (distanceFactor (data b)) SATELLITE_DIST_FACTOR in
  scaled (position (mesh b')) (scale p)
  = Vector3.multiplyScalar (Vector3.multiplyScalar orbit (universeScale S)) factor /\
  scaled (scale (mesh b')) (scale p)
  = (let s := radius (data b) * planetVisualScale S in
     Vector3.mk s (s / Vector3.x (scale p) * Vector3.y (scale p))
       (s / Vector3.x (scale p) * Vector3.z (scale p))) /\
  Vector3.x (scale (mesh b')) * Vector3.x (scale p) = radius (data b) * planetVisualScale S.
Proof.
  intros Hx Hy Hz Hstar b' orbit factor. subst b'.
  rewrite update_position, update_scale, Hstar.
  unfold spec_place, scaled, Vector3.multiplyScalar, Vector3.divide.
  cbn [Vector3.x Vector3.y Vector3.z]. js_real. fold orbit factor.
  repeat split.
  - f_equal; field; assumption.
  - f_equal. field. assumption.
  - field. assumption.
Qed.

(** The Moon under a parent of scale [1/16]. *)
Lemma satellite_compensation_witness :
  let p := mkMesh Vector3.origin 0 (Vector3.mk (1 / 16) (1 / 16) (1 / 16)) in
  let b := createCelestialBody (T:=R) Moon in
  let b' := updateBodyPhysics DEFAULTS (Some p) b 2451545 0 in
  let orbit := getOrbitPosition (elements (data b)) (getMeanAnomaly (elements (data b)) 2451545) in
  scaled (position (mesh b')) (scale p)
  = Vector3.multiplyScalar (Vector3.multiplyScalar orbit (universeScale DEFAULTS))
      (or_default (distanceFactor (data b)) SATELLITE_DIST_FACTOR) /\
  scaled (scale (mesh b')) (scale p)
  = (let s := radius (data b) * planetVisualScale DEFAULTS in
     Vector3.mk s (s / Vector3.x (scale p) * Vector3.y (scale p))
       (s / Vector3.x (scale p) * Vector3.z (scale p))) /\
  Vector3.x (scale (mesh b')) * Vector3.x (scale p)
  = radius (data b) * planetVisualScale DEFAULTS.
Proof.
  intros p b.
  apply (satellite_compensation DEFAULTS p b 2451545 0); cbn; try reflexivity; lra.
Defined.

(** ** Binary64: an Invalid Date, a zero period, a zero scale *)

Section Poison.
Variable impl : MathImpl.
Hypothesis Hconf : conforms impl.
Let num : JSNumber float := JSFloat impl.
#[local] Existing Instance num.
Local Open Scope float_scope.

Lemma julianDate_invalid (offset : float) : getJulianDate (mkDate nan offset) = nan.
Proof.
  unfold getJulianDate. cbn [getTime getTimezoneOffset]. unfold num. js_float.
  rewrite div_nan_l, sub_nan_l, add_nan_l. reflexivity.
Qed.

Lemma orbitPosition_at_nan (el : Elements.t float) :
  getOrbitPosition el (getMeanAnomaly el nan) = Vector3.mk nan nan nan.
Proof.
  assert (HM : getMeanAnomaly el nan = nan).
  { unfold getMeanAnomaly. unfold num. js_float.
    rewrite sub_nan_l, mul_nan_r, add_nan_r, sub_nan_l. reflexivity. }
  rewrite HM. unfold getOrbitPosition.
  assert (Hrad : (nan * DEG_TO_RAD)%js = nan) by (unfold num; js_float; apply mul_nan_l).
  rewrite Hrad, (solveKepler_nonfinite impl Hconf _ _ nonfinite_nan).
  apply (orbitFrame_nan impl Hconf).
Qed.

Lemma update_at_nan (S : Settings float) (parent : option (Mesh float)) (b : BodyObj float) :
  rotation_y (mesh (updateBodyPhysics S parent b nan nan)) = nan /\
  (isStar (data b) = false ->
   position (mesh (updateBodyPhysics S parent b nan nan)) = Vector3.mk nan nan nan).
Proof.
  split.
  - destruct b as [m d l sats]. cbn [updateBodyPhysics mesh rotation_y]. unfold num. js_float.
    rewrite div_nan_l, mul_nan_l. reflexivity.
  - intros Hstar. rewrite update_position, Hstar. unfold spec_place.
    rewrite orbitPosition_at_nan.
    destruct parent as [p|]; unfold Vector3.multiplyScalar, Vector3.divide;
      cbn [Vector3.x Vector3.y Vector3.z]; unfold num; js_float;
      rewrite ?mul_nan_l, ?div_nan_l; reflexivity.
Qed.

Lemma update_tree_at_nan (S : Settings float) (b : BodyObj float) :
  forall parent : option (Mesh float),
    Forall (fun c =>
              rotation_y (mesh c) = nan /\
              (isStar (data c) = false -> position (mesh c) = Vector3.mk nan nan nan))
      (bodiesOf (updateBodyPhysics S parent b nan nan)).
Proof.
  induction b as [m d l sats IH] using BodyObj_tree_ind. intros parent.
  pose proof (update_at_nan S parent (mkBodyObj m d l sats)) as Hhead.
  cbn [updateBodyPhysics bodiesOf] in *. constructor.
  - cbn [data] in *. exact Hhead.
  - rewrite Forall_forall in *. intros c Hc.
    apply in_flat_map in Hc. destruct Hc as (sat' & Hsat' & Hc).
    apply in_map_iff in Hsat'. destruct Hsat' as (sat & Heq & Hsat). subst sat'.
    match type of Hc with
    | In c (bodiesOf (updateBodyPhysics S ?p sat nan nan)) =>
        pose proof (IH sat Hsat p) as Hin
    end.
    rewrite Forall_forall in Hin. apply Hin, Hc.
Qed.

Lemma TimeClip_nan : TimeClip nan = nan.
Proof. reflexivity. Qed.

Lemma animate_invalid (S : Settings float) (zone : float -> float) (delta speed : float)
  (st : Date float * list (BodyObj float)) :
  getTime (fst st) = nan \/ speed = nan ->
  getTime (fst (animate impl S zone delta speed st)) = nan.
Proof.
  intros Hnan. unfold animate, newDate. cbn [fst getTime].
  assert (Hsum : getTime (fst st) + delta * speed * 1000 = nan).
  { destruct Hnan as [-> | ->]; [apply add_nan_l|].
    rewrite mul_nan_r, mul_nan_l, add_nan_r. reflexivity. }
  rewrite Hsum. apply TimeClip_nan.
Qed.

Lemma animate_scene (S : Settings float) (zone : float -> float) (delta speed : float)
  (st : Date float * list (BodyObj float)) :
  getTime (fst (animate impl S zone delta speed st)) = nan ->
  Forall (fun b =>
            Forall (fun c =>
                      rotation_y (mesh c) = nan /\
                      (isStar (data c) = false -> position (mesh c) = Vector3.mk nan nan nan))
              (bodiesOf b))
    (snd (animate impl S zone delta speed st)).
Proof.
  unfold animate. cbn [fst snd]. intros Ht. unfold updatePhysics.
  set (date := newDate zone (getTime (fst st) + delta * speed * 1000)) in *.
  destruct date as [t off]. cbn [getTime] in Ht. subst t.
  rewrite julianDate_invalid. cbn [getTime div JSFloat]. rewrite div_nan_l.
  rewrite Forall_forall. intros b' Hb'.
  apply in_map_iff in Hb'. destruct Hb' as (b & <- & _). apply update_tree_at_nan.
Qed.

(** X10. On binary64 with any conforming engine, a [speedMultiplier] that is
    NaN for one frame (a speed button whose [data-speed] does not parse)
    makes the simulation date an Invalid Date, and an Invalid Date is never
    left again by [animate], whatever the later speeds: at every later frame
    every body is spun by NaN and every body that is not the star is placed
    at [(NaN, NaN, NaN)], satellites included. *)
Theorem nan_speed_poisons_the_clock (S : Settings float) (zone : float -> float)
  (before after : list (float * float)) (delta : float)
  (st : Date float * list (BodyObj float)) :
  let st' := frames impl S zone (before ++ (delta, nan) :: after) st in
  getTime (fst st') = nan /\
  Forall (fun b =>
            Forall (fun c =>
                      rotation_y (mesh c) = nan /\
                      (isStar (data c) = false -> position (mesh c) = Vector3.mk nan nan nan))
              (bodiesOf b))
    (snd st').
Proof.
  unfold frames. rewrite fold_left_app. cbn [fold_left fst snd].
  set (st0 := fold_left _ before st).
  pose proof (animate_invalid S zone delta nan st0 (or_intror eq_refl)) as H0.
  pose proof (animate_scene S zone delta nan st0 H0) as H1.
  set (st1 := animate impl S zone delta nan st0) in *. clearbody st1. clear st0.
  revert st1 H0 H1. induction after as [|f after IH]; intros st1 H0 H1.
  - split; assumption.
  - cbn [fold_left]. apply IH.
    + apply animate_invalid. left. exact H0.
    + apply animate_scene, animate_invalid. left. exact H0.
Qed.
End Poison.

(** The Sun and the Earth with its Moon, over three frames of 1/64 s: real
    time, a NaN speed, fast forward. *)
Lemma nan_speed_poisons_the_clock_witness :
  let st' :=
    frames RefMath.impl (@DEFAULTS float F64) (fun _ => 0%float)
      ([(0.015625, 1)] ++ (0.015625, nan) :: [(0.015625, 86400)])%float
      (mkDate 946728000000%float 0%float,
       @createSolarSystem float F64 [@Sun float F64; @Earth float F64]) in
  getTime (fst st') = nan /\
  Forall (fun b =>
            Forall (fun c =>
                      rotation_y (mesh c) = nan /\
                      (isStar (data c) = false -> position (mesh c) = Vector3.mk nan nan nan))
              (bodiesOf b))
    (snd st').
Proof.
  exact (nan_speed_poisons_the_clock RefMath.impl RefMath_conforms (@DEFAULTS float F64)
           (fun _ => 0%float) [(0.015625, 1)]%float [(0.015625, 86400)]%float 0.015625%float
           (mkDate 946728000000%float 0%float,
            @createSolarSystem float F64 [@Sun float F64; @Earth float F64])).
Defined.

Section ZeroDivisors.
Variable impl : MathImpl.
Let num : JSNumber float := JSFloat impl.
#[local] Existing Instance num.
Local Open Scope float_scope.

Lemma eqb_zero (z : float) : PrimFloat.eqb z 0 = true -> exists s, Prim2SF z = S754_zero s.
Proof.
  rewrite eqb_spec. change (Prim2SF 0) with (S754_zero false).
  destruct (Prim2SF z) as [s|s| |s m e]; simpl; eauto; try discriminate; destruct s; discriminate.
Qed.

(** Whatever is divided by a zero, the quotient is an infinity or NaN. *)
Lemma div_zero_nonfinite (x z : float) : PrimFloat.eqb z 0 = true -> nonfinite (x / z).
Proof.
  intros Hz. destruct (eqb_zero z Hz) as [s Hs]. unfold nonfinite. rewrite div_spec, Hs.
  destruct (Prim2SF x) as [t|t| |t m e]; simpl; eauto.
Qed.

(** Whatever is multiplied by a zero, the product is a zero or NaN. *)
Lemma mul_zero (x z : float) :
  PrimFloat.eqb z 0 = true -> Prim2SF (x * z) = S754_nan \/ exists s, Prim2SF (x * z) = S754_zero s.
Proof.
  intros Hz. destruct (eqb_zero z Hz) as [s Hs]. rewrite mul_spec, Hs.
  destruct (Prim2SF x) as [t|t| |t m e]; simpl; eauto.
Qed.

Lemma finite_mul_zero (x z : float) :
  is_finite x = true -> PrimFloat.eqb z 0 = true -> PrimFloat.eqb (x * z) 0 = true.
Proof.
  intros Hx Hz. destruct (eqb_zero z Hz) as [s Hs].
  rewrite eqb_spec, mul_spec, Hs. change (Prim2SF 0) with (S754_zero false).
  unfold is_finite, is_nan, is_infinity in Hx.
  rewrite (eqb_spec x x), (eqb_spec (abs x)), abs_spec in Hx.
  change (Prim2SF infinity) with (S754_infinity false) in Hx.
  destruct (Prim2SF x) as [t|t| |t m e]; simpl in *; try discriminate; try reflexivity.
  destruct t; discriminate.
Qed.

Lemma zero_or_nan_div_zero (x z : float) :
  (Prim2SF x = S754_nan \/ exists s, Prim2SF x = S754_zero s) ->
  PrimFloat.eqb z 0 = true -> x / z = nan.
Proof.
  intros Hx Hz. destruct (eqb_zero z Hz) as [s Hs]. apply Prim2SF_nan.
  rewrite div_spec, Hs. destruct Hx as [->|[t ->]]; reflexivity.
Qed.

(** X11. On binary64 a body configured with [rotPeriod: 0] (or [-0]) has no
    finite spin: at every tick its [rotation.y] is an infinity or NaN,
    whatever the date; nothing in [updateBodyPhysics] guards the division
    [hoursPassed / rotPeriod]. *)
Theorem zero_rotPeriod_spin (S : Settings float) (parent : option (Mesh float))
  (b : BodyObj float) (jd h : float) :
  PrimFloat.eqb (rotPeriod (data b)) 0 = true ->
  nonfinite (rotation_y (mesh (updateBodyPhysics S parent b jd h))).
Proof.
  intros Hzero. destruct b as [m d l sats]. cbn [updateBodyPhysics mesh rotation_y data] in *.
  unfold num. js_float.
  apply (nonfinite_mul_finite _ _ false 7074237752028440 (-50)); [reflexivity|].
  apply div_zero_nonfinite, Hzero.
Qed.

(** X12. On binary64, with [planetVisualScale] at [0] a top-level body of
    finite radius is scaled to zero, and each of its satellites gets the
    scale [(NaN, NaN, NaN)] (its own zero size divided by the parent's) and,
    when it orbits, a position whose three coordinates are infinities or
    NaN, at every tick. *)
Theorem zero_visual_scale (S : Settings float) (b : BodyObj float) (jd h : float) :
  PrimFloat.eqb (planetVisualScale S) 0 = true ->
  is_finite (radius (data b)) = true ->
  let b' := updateBodyPhysics S None b jd h in
  PrimFloat.eqb (Vector3.x (scale (mesh b'))) 0 = true /\
  Forall (fun sat =>
            scale (mesh sat) = Vector3.mk nan nan nan /\
            (isStar (data sat) = false ->
             nonfinite (Vector3.x (position (mesh sat))) /\
             nonfinite (Vector3.y (position (mesh sat))) /\
             nonfinite (Vector3.z (position (mesh sat)))))
    (satellites b').
Proof.
  intros Hpvs Hradius b'.
  assert (Hscale : scale (mesh b')
                   = Vector3.mk (radius (data b) * planetVisualScale S)
                       (radius (data b) * planetVisualScale S)
                       (radius (data b) * planetVisualScale S)).
  { subst b'. rewrite update_scale. reflexivity. }
  assert (Hparent : PrimFloat.eqb (radius (data b) * planetVisualScale S) 0 = true)
    by (apply finite_mul_zero; assumption).
  split; [rewrite Hscale; exact Hparent|].
  subst b'. rewrite update_satellites, Forall_forall. intros sat' Hsat'.
  apply in_map_iff in Hsat'. destruct Hsat' as (sat & <- & _).
  rewrite update_scale, update_position, update_data, Hscale.
  cbn [Vector3.x]. split.
  - unfold num. js_float.
    rewrite (zero_or_nan_div_zero _ _ (mul_zero (radius (data sat)) _ Hpvs) Hparent).
    reflexivity.
  - intros Hstar. rewrite Hstar. unfold spec_place, Vector3.divide. rewrite Hscale.
    cbn [Vector3.x Vector3.y Vector3.z]. unfold num. js_float.
    repeat split; apply div_zero_nonfinite, Hparent.
Qed.
End ZeroDivisors.

Section PoisonAt.
#[local] Existing Instance F64.

(** A body that does not spin, under the scene. *)
Lemma zero_rotPeriod_spin_witness :
  nonfinite
    (rotation_y
       (mesh (@updateBodyPhysics float F64 DEFAULTS None
                (mkBodyObj (mkMesh Vector3.origin 0%float Vector3.ones)
                   (mkBodyData 0.5%float (@earthLike float F64) 0%float None false []) None [])
                2451545%float 24%float))).
Proof.
  apply (zero_rotPeriod_spin RefMath.impl (@DEFAULTS float F64) None
           (mkBodyObj (mkMesh Vector3.origin 0%float Vector3.ones)
              (mkBodyData 0.5%float (@earthLike float F64) 0%float None false []) None [])
           2451545%float 24%float).
  reflexivity.
Defined.

(** The Earth with its Moon at [planetVisualScale = 0]. *)
Lemma zero_visual_scale_witness :
  let S := mkSettings 0%float 2%float in
  let b' := @updateBodyPhysics float F64 S None
              (@createCelestialBody float F64 (@Earth float F64)) 2451545%float 0%float in
  PrimFloat.eqb (Vector3.x (scale (mesh b'))) 0 = true /\
  Forall (fun sat =>
            scale (mesh sat) = Vector3.mk nan nan nan /\
            (isStar (data sat) = false ->
             nonfinite (Vector3.x (position (mesh sat))) /\
             nonfinite (Vector3.y (position (mesh sat))) /\
             nonfinite (Vector3.z (position (mesh sat)))))
    (satellites b').
Proof.
  apply (zero_visual_scale RefMath.impl (mkSettings 0%float 2%float)
           (@createCelestialBody float F64 (@Earth float F64)) 2451545%float 0%float);
    reflexivity.
Defined.

(** The Sun's numbers without the flag, at J2000. *)
Lemma unflagged_zero_axis_is_NaN_witness :
  position (mesh (updateBodyPhysics DEFAULTS None (createCelestialBody unflaggedSun)
                    2451545%float 0%float))
  = Vector3.mk nan nan nan.
Proof.
  apply (unflagged_zero_axis_is_NaN RefMath.impl RefMath_conforms DEFAULTS None
           (createCelestialBody unflaggedSun) 2451545%float 0%float); reflexivity.
Defined.
End PoisonAt.

(** ** The meteoroid belt, on any number instance *)

Section Belt.
Context {T : Type} `{JSNumber T}.
Local Open Scope nat_scope.

Lemma drawRadius_next (rnd : nat -> T) (n : nat) : snd (drawRadius rnd n) = (n + 2)%nat.
Proof.
  unfold drawRadius, bind, Math_random, ret.
  destruct (rnd n >? dec 3 1)%js; cbn [snd]; lia.
Qed.

Lemma pickOrbitRadius_trace (bodies : list (BodyData T)) (rnd : nat -> T) :
  forall (left n : nat),
  exists k : nat,
    (k <= left)%nat /\
    snd (pickOrbitRadius bodies left rnd n) = (n + 2 * (k + 1))%nat /\
    fst (pickOrbitRadius bodies left rnd n) = fst (drawRadius rnd (n + 2 * k)) /\
    (forall j, (j < k)%nat -> collides bodies (fst (drawRadius rnd (n + 2 * j))) = true) /\
    (collides bodies (fst (pickOrbitRadius bodies left rnd n)) = true -> k = left).
Proof.
  assert (Hstep : forall left n,
             pickOrbitRadius bodies left rnd n
             = if collides bodies (fst (drawRadius rnd n)) then
                 match left with
                 | O => (fst (drawRadius rnd n), n + 2)
                 | S left' => pickOrbitRadius bodies left' rnd (n + 2)
                 end
               else (fst (drawRadius rnd n), n + 2)).
  { intros left n. pose proof (drawRadius_next rnd n) as Hnext.
    destruct left; cbn [pickOrbitRadius]; unfold bind at 1;
      destruct (drawRadius rnd n) as [R n1]; cbn [fst snd] in *; subst n1;
      destruct (collides bodies R); reflexivity. }
  induction left as [|left IH]; intros n.
  - exists 0. rewrite Hstep. replace (n + 2 * 0) with n by lia.
    destruct (collides bodies (fst (drawRadius rnd n))) eqn:Hcol; cbn [fst snd];
      repeat split; try lia; try reflexivity; try (intros j Hj; lia).
  - rewrite Hstep. destruct (collides bodies (fst (drawRadius rnd n))) eqn:Hcol.
    + destruct (IH (n + 2)) as (k & Hk & Hsnd & Hfst & Hbefore & Hlast).
      exists (S k). repeat split.
      * lia.
      * rewrite Hsnd. lia.
      * rewrite Hfst. f_equal. f_equal. lia.
      * intros j Hj. destruct j as [|j].
        -- replace (n + 2 * 0) with n by lia. exact Hcol.
        -- replace (n + 2 * S j) with (n + 2 + 2 * j) by lia. apply Hbefore. lia.
      * intros Hc. f_equal. apply Hlast, Hc.
    + exists 0. cbn [fst snd]. replace (n + 2 * 0) with n by lia.
      repeat split; try lia; try reflexivity; try (intros j Hj; lia).
      rewrite Hcol. discriminate.
Qed.

(** X13. The loop of [createMeteoroids] that picks an orbit radius keeps the
    first of at most ten draws that is clear of every orbit (no body with
    [a > 0] has its semi-major axis within [0.3] of it), and the tenth draw
    when none is: a radius that collides is kept only after ten attempts.
    Each draw reads two numbers of [Math.random()]. *)
Theorem first_clear_radius_is_kept (bodies : list (BodyData T)) (rnd : nat -> T) (n : nat) :
  let orbitRadius := fst (pickOrbitRadius bodies 9 rnd n) in
  let draw := fun j : nat => fst (drawRadius rnd (n + 2 * j)) in
  exists attempts : nat,
    (1 <= attempts <= 10)%nat /\
    snd (pickOrbitRadius bodies 9 rnd n) = (n + 2 * attempts)%nat /\
    orbitRadius = draw (attempts - 1)%nat /\
    (forall j, (j < attempts - 1)%nat -> collides bodies (draw j) = true) /\
    (collides bodies orbitRadius = true -> attempts = 10%nat).
Proof.
  intros orbitRadius draw.
  destruct (pickOrbitRadius_trace bodies rnd 9 n) as (k & Hk & Hsnd & Hfst & Hbefore & Hlast).
  exists (S k). replace (S k - 1)%nat with k by lia. repeat split.
  - lia.
  - lia.
  - rewrite Hsnd. lia.
  - exact Hfst.
  - exact Hbefore.
  - intros Hc. f_equal. apply Hlast, Hc.
Qed.

(** What one pass of the [for] loop of [createMeteoroids] pushes and sets. *)
Lemma createMeteoroid_eq (bodies : list (BodyData T)) (rnd : nat -> T) (n : nat) :
  let R := fst (pickOrbitRadius bodies 9 rnd n) in
  let n1 := snd (pickOrbitRadius bodies 9 rnd n) in
  let angle := (rnd n1 * Math_PI * int 2)%js in
  let yOffset := ((rnd (S n1) - dec 5 1) * dec 2 1 * R)%js in
  createMeteoroid bodies rnd n
  = (Meteor.mk R angle yOffset (dec 2 2 / Math_sqrt R)%js
       (Vec3.normalize (Vector3.mk (rnd (S (S n1))) (rnd (S (S (S n1))))
                          (rnd (S (S (S (S n1)))))))
       (rnd (S (S (S (S (S n1))))) * dec 5 2)%js (int 0),
     Object3D.mk (Vector3.set (Math_cos angle * R)%js yOffset (Math_sin angle * R)%js)
       Vector3.origin (Vec3.setScalar (int 1 + rnd (S (S (S (S (S (S n1)))))))%js),
     S (S (S (S (S (S (S n1))))))).
Proof.
  intros R n1 angle yOffset. subst R n1 angle yOffset.
  unfold createMeteoroid. unfold bind at 1.
  destruct (pickOrbitRadius bodies 9 rnd n) as [R n1]. reflexivity.
Qed.

Lemma createMeteoroids_loop_Forall (P : Meteor.t T * Object3D.t T -> Prop)
  (bodies : list (BodyData T)) (rnd : nat -> T) :
  (forall n, P (fst (createMeteoroid bodies rnd n))) ->
  forall count n,
    Forall P (fst (createMeteoroids_loop bodies count rnd n)) /\
    List.length (fst (createMeteoroids_loop bodies count rnd n)) = count.
Proof.
  intros HP. induction count as [|count IH]; intros n.
  - split; [constructor|reflexivity].
  - cbn [createMeteoroids_loop]. unfold bind, ret.
    pose proof (HP n) as Hitem.
    destruct (createMeteoroid bodies rnd n) as [item n1]. cbn [fst] in Hitem.
    destruct (IH n1) as [Hall Hlen].
    destruct (createMeteoroids_loop bodies count rnd n1) as [items n2]. cbn [fst] in *.
    split; [constructor; assumption|cbn [List.length]; lia].
Qed.

Lemma setMatrixAt_length {A : Type} (ms : list A) (i : nat) (m : A) :
  List.length (setMatrixAt ms i m) = List.length ms.
Proof.
  revert i. induction ms as [|m0 ms IH]; intros [|i]; cbn [setMatrixAt List.length];
    try reflexivity. rewrite IH. reflexivity.
Qed.

Lemma setMatrixAt_app {A : Type} (pre : list A) (m0 m : A) (rest : list A) :
  setMatrixAt (pre ++ m0 :: rest) (List.length pre) m = pre ++ m :: rest.
Proof.
  induction pre as [|p pre IH]; [reflexivity|]. cbn [app List.length setMatrixAt].
  rewrite IH. reflexivity.
Qed.

Lemma setMatrixAt_beyond {A : Type} (ms : list A) (i : nat) (m : A) :
  (List.length ms <= i)%nat -> setMatrixAt ms i m = ms.
Proof.
  revert i. induction ms as [|m0 ms IH]; intros [|i] Hi; cbn [setMatrixAt List.length] in *;
    try reflexivity; try lia. rewrite IH by lia. reflexivity.
Qed.

Variable SETTINGS : Settings T.
Variables meteorSpeed speedMultiplier : T.

Let step := updateMeteoroid SETTINGS meteorSpeed speedMultiplier.

(** The loop writes entry [k] of the data and instance [i + k]; the instances
    before [i] and, when the data are the shorter, those past them, keep
    their matrix; writes past the end are dropped. *)
Lemma updateMeteoroids_loop_eq (data : list (Meteor.t T)) :
  forall (pre rest : list (Object3D.t T)),
    updateMeteoroids_loop SETTINGS meteorSpeed speedMultiplier (List.length pre) data (pre ++ rest)
    = (map (fun d => fst (step d)) data,
       pre ++ firstn (List.length rest) (map (fun d => snd (step d)) data)
           ++ skipn (List.length data) rest).
Proof.
  induction data as [|d data IH]; intros pre rest.
  - cbn [updateMeteoroids_loop map List.length skipn]. rewrite firstn_nil. reflexivity.
  - cbn [updateMeteoroids_loop map List.length].
    fold (step d). destruct (step d) as [d' m] eqn:Hstep. cbn [fst snd].
    destruct rest as [|m0 rest].
    + rewrite app_nil_r, setMatrixAt_beyond by lia.
      pose proof (IH (pre ++ []) []) as IH'.
      rewrite !app_nil_r in IH'.
      assert (Hbeyond : forall data' i,
                 (List.length pre <= i)%nat ->
                 updateMeteoroids_loop SETTINGS meteorSpeed speedMultiplier i data' pre
                 = (map (fun d => fst (step d)) data', pre)).
      { clear. induction data' as [|d0 data' IHd]; intros i Hi; [reflexivity|].
        cbn [updateMeteoroids_loop map]. fold (step d0). destruct (step d0) as [d0' m0'].
        rewrite setMatrixAt_beyond by lia. rewrite IHd by lia. reflexivity. }
      rewrite Hbeyond by lia. cbn [List.length firstn skipn]. rewrite app_nil_r. reflexivity.
    + rewrite setMatrixAt_app.
      replace (pre ++ m :: rest) with ((pre ++ [m]) ++ rest) by (rewrite <- app_assoc; reflexivity).
      replace (S (List.length pre)) with (List.length (pre ++ [m]))
        by (rewrite length_app; cbn [List.length]; lia).
      rewrite IH. cbn [List.length firstn skipn fst snd]. rewrite <- app_assoc. reflexivity.
Qed.

Lemma updateMeteoroids_eq (matrices : list (Object3D.t T)) (data : list (Meteor.t T)) :
  updateMeteoroids SETTINGS meteorSpeed speedMultiplier (MeteorSystem.mk (Some matrices) data)
  = MeteorSystem.mk
      (Some (firstn (List.length matrices) (map (fun d => snd (step d)) data)
             ++ skipn (List.length data) matrices))
      (map (fun d => fst (step d)) data).
Proof.
  unfold updateMeteoroids. cbn [MeteorSystem.mesh MeteorSystem.data].
  pose proof (updateMeteoroids_loop_eq data [] matrices) as Hloop.
  cbn [List.length app] in Hloop. rewrite Hloop. reflexivity.
Qed.
End Belt.

Section BeltSize.
Context {T : Type} `{JSNumber T}.
Local Open Scope nat_scope.

Lemma createMeteoroids_eq (count : nat) (bodies : list (BodyData T))
  (meteorSystem : MeteorSystem.t T) (rnd : nat -> T) (n : nat) :
  fst (createMeteoroids (S count) bodies meteorSystem rnd n)
  = MeteorSystem.mk (Some (map snd (fst (createMeteoroids_loop bodies (S count) rnd n))))
      (map fst (fst (createMeteoroids_loop bodies (S count) rnd n))).
Proof.
  unfold createMeteoroids. cbn [Nat.eqb]. unfold bind, ret.
  destruct (createMeteoroids_loop bodies (S count) rnd n) as [items n']. reflexivity.
Qed.

(** X14. The random size that [createMeteoroids] gives each instance,
    [1 + Math.random()], does not survive the first [updateMeteoroids]:
    the update composes every instance matrix from [TMP_DUMMY], whose scale
    nothing sets, so after it all [meteorCount] instances have the scale
    [(1, 1, 1)], whatever the settings and the speed. *)
Theorem random_size_is_lost (count : nat) (bodies : list (BodyData T))
  (meteorSystem : MeteorSystem.t T) (rnd : nat -> T) (n : nat)
  (S0 : Settings T) (meteorSpeed speedMultiplier : T) :
  let created := fst (createMeteoroids (S count) bodies meteorSystem rnd n) in
  let updated := updateMeteoroids S0 meteorSpeed speedMultiplier created in
  (exists matrices,
      MeteorSystem.mesh created = Some matrices /\
      List.length matrices = S count /\
      Forall (fun m => exists k, Object3D.scale m = Vec3.setScalar (int 1 + rnd k)%js) matrices) /\
  (exists matrices',
      MeteorSystem.mesh updated = Some matrices' /\
      List.length matrices' = S count /\
      Forall (fun m => Object3D.scale m = Vector3.ones) matrices') /\
  List.length (MeteorSystem.data updated) = S count.
Proof.
  intros created updated. subst updated created. rewrite createMeteoroids_eq.
  destruct (createMeteoroids_loop_Forall
              (fun item => exists k, Object3D.scale (snd item) = Vec3.setScalar (int 1 + rnd k)%js)
              bodies rnd) with (count := S count) (n := n) as [Hall Hlen].
  { intros n0. rewrite createMeteoroid_eq. cbn [fst snd Object3D.scale]. eexists. reflexivity. }
  set (items := fst (createMeteoroids_loop bodies (S count) rnd n)) in *.
  split; [|split].
  - exists (map snd items). cbn [MeteorSystem.mesh]. repeat split.
    + rewrite length_map. exact Hlen.
    + rewrite Forall_map. exact Hall.
  - rewrite updateMeteoroids_eq. eexists. cbn [MeteorSystem.mesh]. split; [reflexivity|].
    rewrite !length_map, skipn_all2 by (rewrite length_map; lia).
    rewrite app_nil_r, firstn_all2 by (rewrite !length_map; lia).
    split; [rewrite !length_map; exact Hlen|].
    rewrite !Forall_map. apply Forall_forall. intros item _. reflexivity.
  - rewrite updateMeteoroids_eq. cbn [MeteorSystem.data]. rewrite !length_map. exact Hlen.
Qed.

(** X15. With [meteorCount] at [0], [createMeteoroids] returns before it
    writes [STATE.meteorSystem.mesh]: it draws no random number, empties the
    data and leaves a mesh that was there in place, and [updateMeteoroids]
    then changes nothing, however often it runs. *)
Theorem zero_count_keeps_the_mesh (bodies : list (BodyData T))
  (matrices : list (Object3D.t T)) (data : list (Meteor.t T)) (rnd : nat -> T) (n : nat)
  (runs : list (Settings T * T * T)) :
  let created := createMeteoroids 0 bodies (MeteorSystem.mk (Some matrices) data) rnd n in
  created = (MeteorSystem.mk (Some matrices) [], n) /\
  fold_left (fun sys run => updateMeteoroids (fst (fst run)) (snd (fst run)) (snd run) sys)
    runs (fst created)
  = MeteorSystem.mk (Some matrices) [] /\
  createMeteoroids 0 bodies (MeteorSystem.mk None []) rnd n = (MeteorSystem.mk None [], n).
Proof.
  cbv zeta. split; [reflexivity|]. split; [|reflexivity].
  change (fst (createMeteoroids 0 bodies (MeteorSystem.mk (Some matrices) data) rnd n))
    with (MeteorSystem.mk (Some matrices) (@nil (Meteor.t T))).
  induction runs as [|run runs IH]; [reflexivity|].
  cbn [fold_left]. rewrite updateMeteoroids_eq. cbn [map firstn List.length skipn app].
  rewrite firstn_nil. exact IH.
Qed.
End BeltSize.

(** ** Exact reals: the meteoroid belt *)

Lemma updateMeteoroid_real (S0 : Settings R) (meteorSpeed s : R) (d : Meteor.t R) :
  updateMeteoroid S0 meteorSpeed s d
  = (let angle := Meteor.angle d + Meteor.speed d * s * meteorSpeed * (1 / 100) in
     let cr := Meteor.currentRotation d
               + Meteor.rotationSpeed d * (if Rlt_dec 0 s then 1 else 0) in
     (Meteor.mk (Meteor.orbitRadius d) angle (Meteor.yOffset d) (Meteor.speed d)
        (Meteor.rotationAxis d) (Meteor.rotationSpeed d) cr,
      Object3D.mk
        (Vector3.mk (cos angle * (Meteor.orbitRadius d * universeScale S0))
           (Meteor.yOffset d * universeScale S0)
           (sin angle * (Meteor.orbitRadius d * universeScale S0)))
        (Vector3.mk (cr * Vector3.x (Meteor.rotationAxis d))
           (cr * Vector3.y (Meteor.rotationAxis d))
           (cr * Vector3.z (Meteor.rotationAxis d)))
        Vector3.ones)).
Proof.
  unfold updateMeteoroid, TMP_DUMMY, Vector3.set. cbn [Object3D.scale]. js_real.
  unfold real_gtb. rewrite !real_dec_0_aux. destruct (Rlt_dec 0 s); reflexivity.
Qed.

(** X16. In exact reals [updateMeteoroids] keeps every meteoroid on its
    circle: it changes only [angle] and [currentRotation], and it puts
    instance [i] at the height [yOffset * universeScale] and at the distance
    [orbitRadius * universeScale] from the vertical axis through the origin,
    whatever the speed and the angle reached. *)
Theorem meteoroid_stays_on_its_circle (S0 : Settings R) (meteorSpeed speedMultiplier : R)
  (matrices : list (Object3D.t R)) (data : list (Meteor.t R)) :
  List.length matrices = List.length data ->
  let updated :=
    updateMeteoroids S0 meteorSpeed speedMultiplier (MeteorSystem.mk (Some matrices) data) in
  Forall2 (fun d d' =>
             Meteor.orbitRadius d' = Meteor.orbitRadius d /\
             Meteor.yOffset d' = Meteor.yOffset d /\
             Meteor.speed d' = Meteor.speed d /\
             Meteor.rotationAxis d' = Meteor.rotationAxis d /\
             Meteor.rotationSpeed d' = Meteor.rotationSpeed d)
    data (MeteorSystem.data updated) /\
  exists matrices',
    MeteorSystem.mesh updated = Some matrices' /\
    Forall2 (fun d m =>
               let p := Object3D.position m in
               let r := Meteor.orbitRadius d * universeScale S0 in
               Vector3.x p * Vector3.x p + Vector3.z p * Vector3.z p = r * r /\
               Vector3.y p = Meteor.yOffset d * universeScale S0)
      data matrices'.
Proof.
  intros Hlen updated. subst updated. rewrite updateMeteoroids_eq.
  cbn [MeteorSystem.data MeteorSystem.mesh]. split.
  - clear Hlen. induction data as [|d data IH]; constructor; [|exact IH].
    rewrite updateMeteoroid_real. cbn. repeat split.
  - eexists. split; [reflexivity|].
    rewrite Hlen, skipn_all2, app_nil_r, firstn_all2 by (rewrite ?length_map; lia).
    clear Hlen. induction data as [|d data IH]; constructor; [|exact IH].
    rewrite updateMeteoroid_real. cbn [snd Object3D.position Vector3.x Vector3.y Vector3.z].
    split; [|reflexivity].
    set (t := Meteor.angle d + Meteor.speed d * speedMultiplier * meteorSpeed * (1 / 100)).
    pose proof (sin2_cos2 t) as Ht. unfold Rsqr in Ht.
    set (r := Meteor.orbitRadius d * universeScale S0).
    transitivity ((sin t * sin t + cos t * cos t) * (r * r)); [ring|]. rewrite Ht. ring.
Qed.

(** Two meteoroids at fast forward. *)
Lemma meteoroid_stays_on_its_circle_witness :
  let data := [Meteor.mk 3 1 (1 / 10) (1 / 100) (Vector3.mk 1 0 0) (1 / 50) 0;
               Meteor.mk 40 2 (- 2) (1 / 300) (Vector3.mk 0 1 0) (1 / 25) 5] in
  let matrices := [TMP_DUMMY (T:=R); TMP_DUMMY (T:=R)] in
  let updated := updateMeteoroids DEFAULTS 1 86400 (MeteorSystem.mk (Some matrices) data) in
  Forall2 (fun d d' =>
             Meteor.orbitRadius d' = Meteor.orbitRadius d /\
             Meteor.yOffset d' = Meteor.yOffset d /\
             Meteor.speed d' = Meteor.speed d /\
             Meteor.rotationAxis d' = Meteor.rotationAxis d /\
             Meteor.rotationSpeed d' = Meteor.rotationSpeed d)
    data (MeteorSystem.data updated) /\
  exists matrices',
    MeteorSystem.mesh updated = Some matrices' /\
    Forall2 (fun d m =>
               let p := Object3D.position m in
               let r := Meteor.orbitRadius d * universeScale DEFAULTS in
               Vector3.x p * Vector3.x p + Vector3.z p * Vector3.z p = r * r /\
               Vector3.y p = Meteor.yOffset d * universeScale DEFAULTS)
      data matrices'.
Proof.
  intros data matrices.
  exact (meteoroid_stays_on_its_circle DEFAULTS 1 86400 matrices data eq_refl).
Defined.

(** X17. In exact reals, a paused belt is still ([speedMultiplier = 0]
    leaves every entry of the data as it is), and a frame of rewind undoes
    the revolution of a frame of fast forward at the same speed but not its
    tumbling: [currentRotation] advances by [rotationSpeed] in every frame
    with a positive speed, whatever the speed, and stands still in every
    other frame. *)
Theorem rewind_does_not_untumble (S0 : Settings R) (meteorSpeed s : R)
  (matrices : list (Object3D.t R)) (data : list (Meteor.t R)) :
  0 < s ->
  let sys := MeteorSystem.mk (Some matrices) data in
  MeteorSystem.data (updateMeteoroids S0 meteorSpeed 0 sys) = data /\
  MeteorSystem.data
    (updateMeteoroids S0 meteorSpeed (- s) (updateMeteoroids S0 meteorSpeed s sys))
  = map (fun d =>
           Meteor.mk (Meteor.orbitRadius d) (Meteor.angle d) (Meteor.yOffset d)
             (Meteor.speed d) (Meteor.rotationAxis d) (Meteor.rotationSpeed d)
             (Meteor.currentRotation d + Meteor.rotationSpeed d))
      data.
Proof.
  intros Hs sys. subst sys. rewrite !updateMeteoroids_eq. cbn [MeteorSystem.data]. split.
  - rewrite <- (map_id data) at 2. apply map_ext. intros d. rewrite updateMeteoroid_real.
    cbn [fst]. destruct (Rlt_dec 0 0) as [Hlt|_]; [lra|]. destruct d. cbn. f_equal; ring.
  - rewrite map_map. apply map_ext. intros d. rewrite !updateMeteoroid_real.
    cbn [fst Meteor.orbitRadius Meteor.angle Meteor.yOffset Meteor.speed Meteor.rotationAxis
         Meteor.rotationSpeed Meteor.currentRotation].
    destruct (Rlt_dec 0 s) as [_|Hn]; [|lra]. destruct (Rlt_dec 0 (- s)) as [Hlt|_]; [lra|].
    f_equal; ring.
Qed.

(** Forward and back at one day per second. *)
Lemma rewind_does_not_untumble_witness :
  let data := [Meteor.mk 3 1 (1 / 10) (1 / 100) (Vector3.mk 1 0 0) (1 / 50) 0] in
  let sys := MeteorSystem.mk (Some [TMP_DUMMY (T:=R)]) data in
  MeteorSystem.data (updateMeteoroids DEFAULTS 1 0 sys) = data /\
  MeteorSystem.data (updateMeteoroids DEFAULTS 1 (- 86400) (updateMeteoroids DEFAULTS 1 86400 sys))
  = map (fun d =>
           Meteor.mk (Meteor.orbitRadius d) (Meteor.angle d) (Meteor.yOffset d)
             (Meteor.speed d) (Meteor.rotationAxis d) (Meteor.rotationSpeed d)
             (Meteor.currentRotation d + Meteor.rotationSpeed d))
      data.
Proof.
  intros data sys.
  apply (rewind_does_not_untumble DEFAULTS 1 86400 [TMP_DUMMY (T:=R)] data). lra.
Defined.

Lemma drawRadius_real (rnd : nat -> R) (m : nat) :
  fst (drawRadius rnd m)
  = if Rlt_dec (3 / 10) (rnd m) then 20 / 10 + rnd (S m) * (25 / 10)
    else 300 / 10 + rnd (S m) * (200 / 10).
Proof.
  unfold drawRadius, bind, Math_random, ret. js_real. unfold real_gtb.
  destruct (Rlt_dec (3 / 10) (rnd m)); reflexivity.
Qed.

(** X18. In exact reals, with every draw of [Math.random()] in [[0, 1)],
    [createMeteoroids] makes [meteorCount] meteoroids, each on a radius of
    the inner belt [[2, 4.5)] or of the outer belt [[30, 50)], at an angle in
    [[0, 2 PI)], at most a tenth of its radius above or below the plane,
    with [speed^2 * orbitRadius = 0.0004] (the speed falls with the square
    root of the radius, as for a Kepler orbit), a tumbling rate in
    [[0, 0.05)] and no tumbling done yet. *)
Theorem created_meteoroids_are_in_range (count : nat) (bodies : list (BodyData R))
  (meteorSystem : MeteorSystem.t R) (rnd : nat -> R) (n : nat) :
  (forall k, 0 <= rnd k < 1) ->
  let created := fst (createMeteoroids (S count) bodies meteorSystem rnd n) in
  List.length (MeteorSystem.data created) = S count /\
  Forall (fun d =>
            let r := Meteor.orbitRadius d in
            (2 <= r < 45 / 10 \/ 30 <= r < 50) /\
            0 <= Meteor.angle d < 2 * PI /\
            Rabs (Meteor.yOffset d) <= r / 10 /\
            Meteor.speed d * Meteor.speed d * r = 4 / 10000 /\
            0 < Meteor.speed d /\
            0 <= Meteor.rotationSpeed d < 5 / 100 /\
            Meteor.currentRotation d = 0)
    (MeteorSystem.data created).
Proof.
  intros Hrnd created. subst created. rewrite createMeteoroids_eq. cbn [MeteorSystem.data].
  destruct (createMeteoroids_loop_Forall
              (fun item =>
                 let d := fst item in
                 let r := Meteor.orbitRadius d in
                 (2 <= r < 45 / 10 \/ 30 <= r < 50) /\
                 0 <= Meteor.angle d < 2 * PI /\
                 Rabs (Meteor.yOffset d) <= r / 10 /\
                 Meteor.speed d * Meteor.speed d * r = 4 / 10000 /\
                 0 < Meteor.speed d /\
                 0 <= Meteor.rotationSpeed d < 5 / 100 /\
                 Meteor.currentRotation d = 0)
              bodies rnd) with (count := S count) (n := n) as [Hall Hlen].
  - intros n0. rewrite createMeteoroid_eq.
    cbn [fst Meteor.orbitRadius Meteor.angle Meteor.yOffset Meteor.speed Meteor.rotationSpeed
         Meteor.currentRotation].
    destruct (pickOrbitRadius_trace bodies rnd 9 n0) as (k & _ & _ & Hfst & _).
    rewrite Hfst, drawRadius_real.
    set (n1 := snd (pickOrbitRadius bodies 9 rnd n0)).
    pose proof (Hrnd (n0 + 2 * k)%nat) as H0. pose proof (Hrnd (S (n0 + 2 * k))) as H1.
    pose proof (Hrnd n1) as H2. pose proof (Hrnd (S n1)) as H3.
    pose proof (Hrnd (S (S (S (S (S n1)))))) as H4. pose proof PI_bounds as HPI.
    set (r := if Rlt_dec (3 / 10) (rnd (n0 + 2 * k)%nat)
              then 20 / 10 + rnd (S (n0 + 2 * k)) * (25 / 10)
              else 300 / 10 + rnd (S (n0 + 2 * k)) * (200 / 10)).
    assert (Hr : 2 <= r < 45 / 10 \/ 30 <= r < 50).
    { unfold r. destruct (Rlt_dec (3 / 10) (rnd (n0 + 2 * k)%nat)); [left|right]; lra. }
    assert (Hrpos : 0 < r) by (destruct Hr; lra).
    pose proof (sqrt_lt_R0 r Hrpos) as Hsqrt.
    pose proof (sqrt_sqrt r ltac:(lra)) as Hsq.
    js_real. rewrite !real_dec_0_aux. repeat split.
    + exact Hr.
    + nra.
    + nra.
    + apply Rabs_le. set (u := (rnd (S n1) - 5 / 10) * (2 / 10)).
      assert (Hu : - (1 / 10) <= u <= 1 / 10) by (unfold u; lra).
      split; nra.
    + replace (2 / 100 / sqrt r * (2 / 100 / sqrt r) * r)
        with (4 / 10000 * r / (sqrt r * sqrt r)) by (field; lra).
      rewrite Hsq. field. lra.
    + apply Rdiv_lt_0_compat; lra.
    + nra.
    + nra.
  - split; [rewrite length_map; exact Hlen|]. rewrite Forall_map. exact Hall.
Qed.

(** Three meteoroids around the Sun and the Earth, every draw at [1/2]. *)
Lemma created_meteoroids_are_in_range_witness :
  let created :=
    fst (createMeteoroids 3 [Sun; Earth] (MeteorSystem.mk None []) (fun _ : nat => 1 / 2) 0%nat) in
  List.length (MeteorSystem.data created) = 3%nat /\
  Forall (fun d =>
            let r := Meteor.orbitRadius d in
            (2 <= r < 45 / 10 \/ 30 <= r < 50) /\
            0 <= Meteor.angle d < 2 * PI /\
            Rabs (Meteor.yOffset d) <= r / 10 /\
            Meteor.speed d * Meteor.speed d * r = 4 / 10000 /\
            0 < Meteor.speed d /\
            0 <= Meteor.rotationSpeed d < 5 / 100 /\
            Meteor.currentRotation d = 0)
    (MeteorSystem.data created).
Proof.
  apply (created_meteoroids_are_in_range 2 [Sun; Earth] (MeteorSystem.mk None [])
           (fun _ : nat => 1 / 2) 0%nat).
  intros k. lra.
Defined.

(** ** Exact reals: the Sun's effects *)

Lemma addFlares_Forall (P : Flare.t R -> Prop) (rnd : nat -> R) :
  (forall n, P (fst (addFlare rnd n))) ->
  forall count n,
    Forall P (fst (addFlares count rnd n)) /\
    List.length (fst (addFlares count rnd n)) = count.
Proof.
  intros HP. induction count as [|count IH]; intros n.
  - split; [constructor|reflexivity].
  - cbn [addFlares]. unfold bind, ret.
    pose proof (HP n) as Hflare.
    destruct (addFlare rnd n) as [flare n1]. cbn [fst] in Hflare.
    destruct (IH n1) as [Hall Hlen].
    destruct (addFlares count rnd n1) as [flares n2]. cbn [fst] in *.
    split; [constructor; assumption|cbn [List.length]; lia].
Qed.

(** What [animateSun] keeps true of a flare after [k] frames. *)
Lemma animateSun_flares (k : nat) (time : R) (fx : SunEffects.t R) :
  Forall (fun f =>
            Flare.rotation f = INR k * Flare.speed f /\
            4 <= Flare.baseScale f < 7 /\
            Rabs (Flare.speed f) <= 5 / 1000)
    (SunEffects.flares fx) ->
  Forall (fun f =>
            (exists s,
                Flare.scale f = Vector3.mk s s s /\ 38 / 10 <= s <= 72 / 10) /\
            3 / 10 <= Flare.opacity f <= 5 / 10 /\
            Flare.rotation f = INR (S k) * Flare.speed f /\
            4 <= Flare.baseScale f < 7 /\
            Rabs (Flare.speed f) <= 5 / 1000)
    (SunEffects.flares (animateSun time fx)).
Proof.
  intros Hinv. unfold animateSun. cbn [SunEffects.flares]. rewrite Forall_map.
  rewrite Forall_forall in *. intros f Hf. destruct (Hinv f Hf) as (Hrot & Hbase & Hspeed).
  cbn [Flare.scale Flare.opacity Flare.rotation Flare.speed Flare.baseScale]. js_real.
  rewrite !real_dec_0_aux.
  pose proof (SIN_bound (time * Flare.pulseSpeed f)) as Hs1.
  pose proof (SIN_bound (time * 5)) as Hs2.
  repeat split; try lra.
  - eexists. split; [reflexivity|]. lra.
  - rewrite Hrot, S_INR. ring.
Qed.

(** X20. In exact reals, with every draw of [Math.random()] in [[0, 1)],
    the five flares that [addSunEffects] makes stay within fixed ranges under
    [animateSun], at every elapsed time and after any number of frames: the
    scale is uniform and between [3.8] and [7.2], the opacity between [0.3]
    and [0.5], and the rotation after [k] frames is [k] times the flare's
    speed, which is at most [0.005] in magnitude; the glow's scale is uniform
    and between [0.98] and [1.02]. *)
Theorem sun_effects_stay_in_range (rnd : nat -> R) (n : nat) (times : list R) (t : R) :
  (forall k, 0 <= rnd k < 1) ->
  let created := fst (addSunEffects (SunEffects.mk None []) rnd n) in
  let fx := fold_left (fun fx time => animateSun time fx) (times ++ [t]) created in
  (exists p,
      SunEffects.glow fx = Some (Glow.mk t (Vector3.mk p p p)) /\
      98 / 100 <= p <= 102 / 100) /\
  List.length (SunEffects.flares fx) = 5%nat /\
  Forall (fun f =>
            (exists s,
                Flare.scale f = Vector3.mk s s s /\ 38 / 10 <= s <= 72 / 10) /\
            3 / 10 <= Flare.opacity f <= 5 / 10 /\
            Flare.rotation f = INR (List.length times + 1) * Flare.speed f /\
            Rabs (Flare.speed f) <= 5 / 1000)
    (SunEffects.flares fx).
Proof.
  intros Hrnd created fx.
  assert (Hcreated :
            (exists g, SunEffects.glow created = Some g) /\
            List.length (SunEffects.flares created) = 5%nat /\
            Forall (fun f =>
                      Flare.rotation f = INR 0 * Flare.speed f /\
                      4 <= Flare.baseScale f < 7 /\
                      Rabs (Flare.speed f) <= 5 / 1000)
              (SunEffects.flares created)).
  { subst created. unfold addSunEffects, bind, ret.
    destruct (addFlares_Forall
                (fun f =>
                   Flare.rotation f = INR 0 * Flare.speed f /\
                   4 <= Flare.baseScale f < 7 /\
                   Rabs (Flare.speed f) <= 5 / 1000)
                rnd) with (count := 5%nat) (n := n) as [Hall Hlen].
    { intros n0. unfold addFlare, bind, Math_random, ret.
      cbn [fst Flare.rotation Flare.speed Flare.baseScale]. js_real. rewrite !real_dec_0_aux.
      pose proof (Hrnd n0) as H0. pose proof (Hrnd (S n0)) as H1.
      cbn [INR]. repeat split; try lra. apply Rabs_le. lra. }
    destruct (addFlares 5 rnd n) as [flares n']. cbn [fst SunEffects.glow SunEffects.flares] in *.
    repeat split; [eexists; reflexivity|exact Hlen|exact Hall]. }
  assert (Hfold : forall (times0 : list R) (k : nat) (fx0 : SunEffects.t R),
             (exists g, SunEffects.glow fx0 = Some g) /\
             List.length (SunEffects.flares fx0) = 5%nat /\
             Forall (fun f =>
                       Flare.rotation f = INR k * Flare.speed f /\
                       4 <= Flare.baseScale f < 7 /\
                       Rabs (Flare.speed f) <= 5 / 1000)
               (SunEffects.flares fx0) ->
             let fx1 := fold_left (fun fx time => animateSun time fx) times0 fx0 in
             (exists g, SunEffects.glow fx1 = Some g) /\
             List.length (SunEffects.flares fx1) = 5%nat /\
             Forall (fun f =>
                       Flare.rotation f = INR (k + List.length times0) * Flare.speed f /\
                       4 <= Flare.baseScale f < 7 /\
                       Rabs (Flare.speed f) <= 5 / 1000)
               (SunEffects.flares fx1)).
  { induction times0 as [|time times0 IH]; intros k fx0 (Hglow & Hlen & Hall).
    - cbn [fold_left List.length]. rewrite Nat.add_0_r. repeat split; assumption.
    - cbn [fold_left List.length]. replace (k + S (List.length times0))%nat
        with (S k + List.length times0)%nat by lia.
      apply IH. repeat split.
      + destruct Hglow as [g Hg]. unfold animateSun. cbn [SunEffects.glow]. rewrite Hg.
        eexists. reflexivity.
      + unfold animateSun. cbn [SunEffects.flares]. rewrite length_map. exact Hlen.
      + pose proof (animateSun_flares k time fx0 Hall) as Hnext.
        rewrite Forall_forall in *. intros f Hf. specialize (Hnext f Hf). tauto. }
  subst fx. rewrite fold_left_app. cbn [fold_left].
  specialize (Hfold times 0%nat created Hcreated). cbv zeta in Hfold.
  set (fx0 := fold_left (fun fx time => animateSun time fx) times created) in *.
  destruct Hfold as ((g & Hg) & Hlen & Hall). cbn [Nat.add] in Hall.
  repeat split.
  - unfold animateSun. cbn [SunEffects.glow]. rewrite Hg. eexists. split; [reflexivity|].
    js_real. pose proof (SIN_bound (t * (5 / 10))). lra.
  - unfold animateSun. cbn [SunEffects.flares]. rewrite length_map. exact Hlen.
  - pose proof (animateSun_flares (List.length times) t fx0 Hall) as Hnext.
    rewrite Forall_forall in *. intros f Hf. specialize (Hnext f Hf).
    replace (List.length times + 1)%nat with (S (List.length times)) by lia. tauto.
Qed.

(** The flares over three frames, every draw at [1/2]. *)
Lemma sun_effects_stay_in_range_witness :
  let created := fst (addSunEffects (SunEffects.mk None []) (fun _ : nat => 1 / 2) 0%nat) in
  let fx := fold_left (fun fx time => animateSun time fx) ([1; 2] ++ [3]) created in
  (exists p,
      SunEffects.glow fx = Some (Glow.mk 3 (Vector3.mk p p p)) /\
      98 / 100 <= p <= 102 / 100) /\
  List.length (SunEffects.flares fx) = 5%nat /\
  Forall (fun f =>
            (exists s,
                Flare.scale f = Vector3.mk s s s /\ 38 / 10 <= s <= 72 / 10) /\
            3 / 10 <= Flare.opacity f <= 5 / 10 /\
            Flare.rotation f = INR (List.length [1; 2] + 1) * Flare.speed f /\
            Rabs (Flare.speed f) <= 5 / 1000)
    (SunEffects.flares fx).
Proof.
  apply (sun_effects_stay_in_range (fun _ : nat => 1 / 2) 0%nat [1; 2] 3).
  intros k. lra.
Defined.

(** ** The tree of bodies, on any number instance *)

Section Tree.
Context {T : Type} `{JSNumber T}.

(** Induction on an entry of the configuration and, inside, on the entries
    of its satellites. *)
Lemma BodyData_tree_ind (P : BodyData T -> Prop) :
  (forall r el p f s sats, Forall P sats -> P (mkBodyData r el p f s sats)) -> forall d, P d.
Proof.
  intros Hnode. fix IH 1. intros [r el p f s sats]. apply Hnode.
  induction sats as [|sat sats IHsats]; constructor; [apply IH|exact IHsats].
Qed.

Lemma create_mirrors (S : Settings T) (jd h : T) (d : BodyData T) :
  forall parent : option (Mesh T),
    Forall (fun c => map (@data T) (satellites c) = satellitesData (data c))
      (bodiesOf (updateBodyPhysics S parent (createCelestialBody d) jd h)).
Proof.
  induction d as [r el p f s sats IH] using BodyData_tree_ind. intros parent.
  cbn [createCelestialBody updateBodyPhysics bodiesOf]. constructor.
  - cbn [satellites data satellitesData]. rewrite !map_map.
    rewrite <- (map_id sats) at 2. apply map_ext. intros sat.
    rewrite update_data. apply create_data.
  - rewrite Forall_forall in *. intros c Hc.
    apply in_flat_map in Hc. destruct Hc as (sat' & Hsat' & Hc).
    rewrite map_map in Hsat'. apply in_map_iff in Hsat'. destruct Hsat' as (sat & Heq & Hsat).
    subst sat'.
    match type of Hc with
    | In c (bodiesOf (updateBodyPhysics S ?q (createCelestialBody sat) jd h)) =>
        pose proof (IH sat Hsat q) as Hin
    end.
    rewrite Forall_forall in Hin. apply Hin, Hc.
Qed.

(** X21. The tree of body objects mirrors the configuration: after
    [createSolarSystem] and a tick of [updatePhysics] at any date, the
    top-level objects carry the entries of [CELESTIAL_BODIES], one each and in
    order, and every body at any depth has one satellite object for each
    entry of its [satellites], in order: none is lost, doubled or moved. *)
Theorem tree_mirrors_configuration (S : Settings T) (simulationDate : Date T)
  (bodies : list (BodyData T)) :
  let activeBodies := updatePhysics S simulationDate (createSolarSystem bodies) in
  map (@data T) activeBodies = bodies /\
  Forall (fun b =>
            Forall (fun c => map (@data T) (satellites c) = satellitesData (data c))
              (bodiesOf b))
    activeBodies.
Proof.
  unfold updatePhysics, createSolarSystem. cbv zeta. rewrite !map_map. split.
  - rewrite <- (map_id bodies) at 2. apply map_ext. intros d.
    rewrite update_data. apply create_data.
  - rewrite Forall_map. apply Forall_forall. intros d _. apply create_mirrors.
Qed.
End Tree.

(** ** Exact reals: the shipped configuration *)

Lemma real_gtb_true (x y : R) : real_gtb x y = true -> y < x.
Proof. unfold real_gtb. destruct (Rlt_dec y x); [tauto|discriminate]. Qed.

Lemma real_gtb_lt (x y : R) : y < x -> real_gtb x y = true.
Proof. intros Hlt. unfold real_gtb. destruct (Rlt_dec y x); [reflexivity|contradiction]. Qed.

Lemma collides_real (bodies : list (BodyData R)) (r : R) :
  collides bodies r = true <->
  exists body, In body bodies /\
               0 < Elements.a (elements body) /\
               Rabs (r - Elements.a (elements body)) < 3 / 10.
Proof.
  unfold collides. rewrite existsb_exists. split.
  - intros (body & Hin & Hb). exists body. split; [exact Hin|].
    apply andb_prop in Hb. destruct Hb as [Ha Hd]. js_real. rewrite real_dec_0_aux in Ha.
    apply real_gtb_true in Ha. apply real_gtb_true in Hd. split; assumption.
  - intros (body & Hin & Ha & Hd). exists body. split; [exact Hin|].
    js_real. rewrite real_dec_0_aux. rewrite (real_gtb_lt _ _ Ha), (real_gtb_lt _ _ Hd).
    reflexivity.
Qed.

(** Among the radii that [createMeteoroids] draws, the collision test fires
    on those of the outer belt below [30.3709] only: within [0.3] of
    Neptune's [a = 30.0709]. *)
Lemma collides_shipped (r : R) :
  2 <= r < 45 / 10 \/ 30 <= r < 50 ->
  (collides CELESTIAL_BODIES r = true <-> 30 <= r < 303709 / 10000).
Proof.
  intros Hr. rewrite collides_real. split.
  - intros (body & Hin & Ha & Hd).
    apply Rabs_def2 in Hd.
    unfold CELESTIAL_BODIES in Hin. cbn [In] in Hin.
    repeat (destruct Hin as [<-|Hin]);
      try contradiction;
      cbn [elements Elements.a Sun Mercury Venus Earth Mars Jupiter Saturn Uranus Neptune] in *;
      js_real; rewrite ?real_dec_0_aux in *; lra.
  - intros Hn. exists Neptune. split; [unfold CELESTIAL_BODIES; cbn [In]; tauto|].
    cbn [elements Elements.a Neptune]. js_real. split; [lra|]. apply Rabs_def1; lra.
Qed.

(** X22. In exact reals and with the bodies of [CELESTIAL_BODIES], with every
    draw of [Math.random()] in [[0, 1)]: the radius that [createMeteoroids]
    picks for a meteoroid is within [0.3] of a planet's semi-major axis only
    if it lies in [[30, 30.3709)], next to Neptune's orbit, and only if all
    ten attempts drew such a radius: each first draw at most [0.3] and each
    second draw below [0.018545]. *)
Theorem meteoroids_avoid_the_planets (rnd : nat -> R) (n : nat) :
  (forall k, 0 <= rnd k < 1) ->
  let orbitRadius := fst (pickOrbitRadius CELESTIAL_BODIES 9 rnd n) in
  (2 <= orbitRadius < 45 / 10 \/ 30 <= orbitRadius < 50) /\
  (collides CELESTIAL_BODIES orbitRadius = true <-> 30 <= orbitRadius < 303709 / 10000) /\
  (collides CELESTIAL_BODIES orbitRadius = true ->
   forall j, (j < 10)%nat ->
             rnd (n + 2 * j)%nat <= 3 / 10 /\ rnd (S (n + 2 * j)) < 18545 / 1000000).
Proof.
  intros Hrnd orbitRadius.
  assert (Hdraw : forall m,
             2 <= fst (drawRadius rnd m) < 45 / 10 \/ 30 <= fst (drawRadius rnd m) < 50).
  { intros m. rewrite drawRadius_real.
    pose proof (Hrnd m) as H0. pose proof (Hrnd (S m)) as H1.
    destruct (Rlt_dec (3 / 10) (rnd m)); [left|right]; lra. }
  destruct (pickOrbitRadius_trace CELESTIAL_BODIES rnd 9 n)
    as (k & Hk & _ & Hfst & Hbefore & Hlast).
  fold orbitRadius in Hfst, Hlast.
  assert (Hrange : 2 <= orbitRadius < 45 / 10 \/ 30 <= orbitRadius < 50)
    by (rewrite Hfst; apply Hdraw).
  split; [exact Hrange|]. split; [apply collides_shipped, Hrange|].
  intros Hcol j Hj. specialize (Hlast Hcol). subst k.
  assert (Hj' : collides CELESTIAL_BODIES (fst (drawRadius rnd (n + 2 * j)%nat)) = true).
  { destruct (Nat.eq_dec j 9) as [->|Hne]; [rewrite <- Hfst; exact Hcol|apply Hbefore; lia]. }
  apply (collides_shipped _ (Hdraw _)) in Hj'. rewrite drawRadius_real in Hj'.
  pose proof (Hrnd (n + 2 * j)%nat) as H0. pose proof (Hrnd (S (n + 2 * j))) as H1.
  destruct (Rlt_dec (3 / 10) (rnd (n + 2 * j)%nat)); lra.
Qed.

(** Every draw at [1/2]: the first radius, [3.25], is kept. *)
Lemma meteoroids_avoid_the_planets_witness :
  let orbitRadius := fst (pickOrbitRadius CELESTIAL_BODIES 9 (fun _ : nat => 1 / 2) 0%nat) in
  (2 <= orbitRadius < 45 / 10 \/ 30 <= orbitRadius < 50) /\
  (collides CELESTIAL_BODIES orbitRadius = true <-> 30 <= orbitRadius < 303709 / 10000) /\
  (collides CELESTIAL_BODIES orbitRadius = true ->
   forall j, (j < 10)%nat ->
             (fun _ : nat => 1 / 2) (0 + 2 * j)%nat <= 3 / 10 /\
             (fun _ : nat => 1 / 2) (S (0 + 2 * j)) < 18545 / 1000000).
Proof.
  apply (meteoroids_avoid_the_planets (fun _ : nat => 1 / 2) 0%nat).
  intros k. lra.
Defined.

